(** * lexirumah-data: the cognate pipeline of [cognates.py]

    A shallow embedding of the segmenter ([tokenize]), the alignment
    synthesizer ([alignment]) and the table stages of the [__main__]
    block (label renumbering, LONG_COGID resolution, COGID assignment,
    alignment validation), with the properties the specification states
    about them. *)

From Stdlib Require Import NArith ZArith List Ascii String Bool Lia.
From Stdlib Require Import DecimalString.
From stdpp Require Import base decidable option list gmap sets.

Local Open Scope N_scope.

(** ** Python values *)

(** A Python [str] is a sequence of Unicode code points. *)
Abbreviation char := N.
Abbreviation pystr := (list N).

(** Source literals are written as in the Python file and decoded from
    the UTF-8 bytes of the Rocq string. *)
Fixpoint utf8_decode (bs : list N) : pystr :=
  match bs with
  | [] => []
  | b :: r =>
    if b <? 128 then b :: utf8_decode r
    else match r with
    | [] => []
    | b1 :: r1 =>
      if b <? 224 then ((b - 192) * 64 + (b1 - 128)) :: utf8_decode r1
      else match r1 with
      | [] => []
      | b2 :: r2 =>
        if b <? 240
        then ((b - 224) * 4096 + (b1 - 128) * 64 + (b2 - 128)) :: utf8_decode r2
        else match r2 with
        | [] => []
        | b3 :: r3 =>
          ((b - 240) * 262144 + (b1 - 128) * 4096 + (b2 - 128) * 64 + (b3 - 128))
            :: utf8_decode r3
        end
      end
    end
  end.

Definition u (s : string) : pystr :=
  utf8_decode (map N_of_ascii (list_ascii_of_string s)).
Arguments u s%_string.

(** Exceptions the modelled code can raise, and results of fallible code. *)
Inductive exn := IndexError | ValueError | AttributeError.

Inductive result (A : Type) :=
  | Ok (a : A)
  | Raise (e : exn).
Arguments Ok {A} a.
Arguments Raise {A} e.

#[global] Instance result_ret : MRet result := fun A a => Ok a.
#[global] Instance result_bind : MBind result := fun A B k r =>
  match r with
  | Ok a => k a
  | Raise e => Raise e
  end.

(** ** String operations used by the pipeline *)

(** [if segment: yield segment] -- also the word flush of [str.split]. *)
Definition yield_if (segment : pystr) : list pystr :=
  match segment with
  | [] => []
  | _ :: _ => [segment]
  end.

(** [str.isspace] on one code point (CPython's whitespace table). *)
Definition isspace (c : char) : bool :=
  ((9 <=? c) && (c <=? 13)) || ((28 <=? c) && (c <=? 32))
  || (c =? 133) || (c =? 160) || (c =? 5760)
  || ((8192 <=? c) && (c <=? 8202))
  || (c =? 8232) || (c =? 8233) || (c =? 8239) || (c =? 8287) || (c =? 12288).

(** [s.split()]: split on runs of whitespace, dropping empty words. *)
Fixpoint split_from (word s : pystr) : list pystr :=
  match s with
  | [] => yield_if word
  | c :: s' =>
    if isspace c then yield_if word ++ split_from [] s'
    else split_from (word ++ [c]) s'
  end.

Definition split (s : pystr) : list pystr := split_from [] s.

(** [sep.join(l)] *)
Fixpoint join (sep : pystr) (l : list pystr) : pystr :=
  match l with
  | [] => []
  | x :: l' =>
    match l' with
    | [] => x
    | _ :: _ => x ++ sep ++ join sep l'
    end
  end.

(** [s.replace(old, new)] for a one-character [old]. *)
Definition replace (old new s : pystr) : pystr :=
  concat (map (fun c => if decide ([c] = old) then new else [c]) s).

(** [[x for x in alignment.split() if x != "-"]] *)
Definition gap_free (alignment : pystr) : list pystr :=
  List.filter (fun x => negb (bool_decide (x = u "-"))) (split alignment).

(** A token that [" ".join] followed by [split] and the gap filter hands
    back unchanged: not empty, not the gap symbol, free of whitespace. *)
Definition plain (token : pystr) : Prop :=
  token <> [] /\ token <> u "-" /\ Forall (fun c => isspace c = false) token.

(** The string of one line break. *)
Definition newline : pystr := [10].

(** ** The segmenter: [tokenize] *)

(** The default [substitutions] dictionary. *)
Definition substitutions : list (pystr * pystr) :=
  [ (u "ä", u "a"); (u "ε", u "ɛ"); (u "é", u "e"); (u "á", u "a");
    (u "í", u "i"); (u "Ɂ", u "ʔ"); (u "ˈ", u "'"); (u ":", u "ː");
    (u "ɡ", u "g") ].

Fixpoint dict_get (d : list (pystr * pystr)) (k : pystr) : option pystr :=
  match d with
  | [] => None
  | (k', v) :: d' => if decide (k = k') then Some v else dict_get d' k
  end.

(** [if symbol in substitutions: symbol = substitutions[symbol]] *)
Definition substitute (symbol : pystr) : pystr :=
  match dict_get substitutions symbol with
  | Some v => v
  | None => symbol
  end.

(** The branch of the [if]/[elif] chain a symbol takes. *)
Inductive branch :=
  | StressMark | Boundary | SyllableBreak | Consonant | Vowel | Other.

Record scanner := { segment : pystr; stress : bool }.

Section Segmenter.
(** The glyph lists computed from the CLPA data
    ([clpadata[c]["glyph"]] for the consonants and for the vowels);
    the data file is loaded by [pyclpa] and is not part of the script. *)
Variables consonants vowels : list pystr.

Definition classify (symbol : pystr) : branch :=
  if decide (symbol ∈ [u "'"]) then StressMark
  else if decide (symbol ∈ [u "_"; u "-"]) then Boundary
  else if decide (symbol ∈ [u "."]) then SyllableBreak
  else if decide (symbol ∈ consonants) then Consonant
  else if decide (symbol ∈ vowels) then Vowel
  else Other.

(** The branch taken by a character of the form, after substitution. *)
Definition branch_of (c : char) : branch := classify (substitute [c]).

(** One iteration of [for symbol in form]: the segments yielded and
    the loop variables afterwards. *)
Definition step (st : scanner) (c : char) : list pystr * scanner :=
  let symbol := substitute [c] in
  match classify symbol with
  | StressMark =>
      (yield_if (segment st), {| segment := []; stress := true |})
  | Boundary =>
      (yield_if (segment st) ++ [symbol],
       {| segment := []; stress := stress st |})
  | SyllableBreak =>
      (yield_if (segment st), {| segment := []; stress := stress st |})
  | Consonant =>
      (yield_if (segment st), {| segment := symbol; stress := false |})
  | Vowel =>
      (yield_if (segment st),
       {| segment := if stress st then u "'" ++ symbol else symbol;
          stress := stress st |})
  | Other =>
      ([], {| segment := segment st ++ symbol; stress := stress st |})
  end.

(** The loop: everything yielded inside it and the final loop variables. *)
Fixpoint run (st : scanner) (form : pystr) : list pystr * scanner :=
  match form with
  | [] => ([], st)
  | c :: form' =>
    let '(out, st') := step st c in
    let '(outs, st'') := run st' form' in
    (out ++ outs, st'')
  end.

(** The loop followed by the final [yield segment]. *)
Definition scan (st : scanner) (form : pystr) : list pystr :=
  let '(outs, st') := run st form in outs ++ [segment st'].

Definition start : scanner := {| segment := []; stress := false |}.

(** [tokenize(form)], consumed as a whole ([list(...)], [" ".join(...)]).
    [form[0]] raises IndexError on the empty string. *)
Definition tokenize (form : pystr) : result (list pystr) :=
  match form with
  | [] => Raise IndexError
  | c :: form' =>
    let form := if decide ([c] = u "*") then form' else form in
    Ok (scan start form)
  end.

End Segmenter.

(** A small excerpt of the CLPA glyph tables, for concrete runs. *)
Definition clpa_consonants : list pystr :=
  [u "p"; u "t"; u "k"; u "m"; u "n"; u "s"; u "l"; u "r"; u "ʔ"; u "g"].
Definition clpa_vowels : list pystr :=
  [u "a"; u "e"; u "i"; u "o"; u "u"; u "ɛ"].

(** ** Table cells *)

(** A non-missing cell of a table read by [pandas.read_csv]: text, or a
    number (labels and identifiers written by the pipeline are integers). *)
Inductive value :=
  | Str (s : pystr)
  | Num (z : Z).

(** A cell; [None] is the missing value (NaN). *)
Definition cell := option value.

#[global] Instance value_eq_dec : EqDecision value.
Proof. solve_decision. Defined.

#[global] Instance value_countable : Countable value.
Proof.
  refine (inj_countable'
    (fun v => match v with Str s => inl s | Num z => inr z end)
    (fun x => match x with inl s => Str s | inr z => Num z end) _).
  intros []; reflexivity.
Defined.

(** [a == b] on cells: a missing value equals nothing, itself included. *)
Definition py_eq (a b : cell) : bool :=
  match a, b with
  | Some x, Some y => bool_decide (x = y)
  | _, _ => false
  end.

(** [a != b] *)
Definition py_ne (a b : cell) : bool := negb (py_eq a b).

(** [pandas.isnull(c)] *)
Definition isnull (c : cell) : bool :=
  match c with
  | None => true
  | Some _ => false
  end.

(** Truth value of a cell ([not c] is its negation): the empty string
    and zero are false, NaN is true. *)
Definition truthy (c : cell) : bool :=
  match c with
  | None => true
  | Some (Str s) => negb (bool_decide (s = []))
  | Some (Num z) => negb (bool_decide (z = 0%Z))
  end.

(** [l.index(x)]: position of the first element equal to [x]. *)
Fixpoint index `{EqDecision A} (l : list A) (x : A) : result nat :=
  match l with
  | [] => Raise ValueError
  | y :: l' =>
    if decide (x = y) then Ok 0%nat
    else n ← index l' x; mret (S n)
  end.

(** [str] of a cell of an integer column. *)
Definition repr_int (z : Z) : pystr := u (NilZero.string_of_int (Z.to_int z)).

(** ** The alignment synthesizer: [alignment] *)

Section Alignment.
Variables consonants vowels : list pystr.
(** [str] of a numeric cell (its digits depend on the column's dtype). *)
Variable repr : Z -> pystr.

(** [str(c)] *)
Definition str (c : cell) : pystr :=
  match c with
  | None => u "nan"
  | Some (Str s) => s
  | Some (Num z) => repr z
  end.

(** The transcription as [alignment] scans it. *)
Definition normalize (form : cell) : pystr :=
  replace (u " ") (u "_") (replace newline (u ";") (str form)).

(** One iteration of the loop of [alignment]: the string yielded for a
    row.  [alignment.replace] exists only on strings. *)
Definition alignment_entry (form alignment : cell) : result pystr :=
  let form := normalize form in
  match alignment with
  | Some (Str alignment) =>
    let alignment := replace newline (u ";") alignment in
    if decide (alignment ∈ [u ""; u "nan"]) then
      tokens ← tokenize consonants vowels form;
      mret (join (u " ") tokens)
    else
      tokens ← tokenize consonants vowels form;
      if decide (tokens ≠ gap_free alignment)
      then tokens ← tokenize consonants vowels form;
           mret (join (u " ") tokens)
      else mret alignment
  | _ => Raise AttributeError
  end.

(** [list(alignment(data))] over the (IPA, ALIGNMENT) pairs. *)
Definition alignment (data : list (cell * cell)) : result (list pystr) :=
  mapM (fun row => alignment_entry row.1 row.2) data.

End Alignment.

(** ** Stage 0: renumbering of COGNATE_SET *)

Section Renumber.
(** [list(set(data["COGNATE_SET"]))] as it is evaluated for the row at
    position [k]: the comprehension builds the set and the list anew for
    every row.  The order of the list is the interpreter's iteration order
    of that set, and two evaluations need not agree on it (a missing value
    of a numeric column is a fresh object for every evaluation, and hashes
    by identity). *)
Variable list_of_set : nat -> list cell -> list cell.

(** [i=='nan' or pandas.isnull(i) or not i] *)
Definition absent (i : cell) : bool :=
  py_eq i (Some (Str (u "nan"))) || isnull i || negb (truthy i).

(** The new label of the row at position [k], whose cell is [i]; [index]
    is only reached for a cell that is not missing, where [==] is equality
    of values. *)
Definition renumber_cell (column : list cell) (k : nat) (i : cell)
  : result cell :=
  if absent i
  then mret (Some (Str (u "")))
  else n ← index (list_of_set k column) i;
       mret (Some (Num (Z.of_nat n + 1))).

(** The new COGNATE_SET column. *)
Definition renumber (column : list cell) : result (list cell) :=
  mapM (fun ki => renumber_cell column ki.1 ki.2) (imap pair column).

End Renumber.

(** ** Stage 2: the cognate resolver (LONG_COGID) *)

Module Resolver.

(** The columns the loop reads, and the LONG_COGID column it writes
    ([None] before the row is resolved). *)
Record Row := {
  DOCULECT : cell;
  DOCULECT_ID : cell;
  CONCEPT : cell;
  IPA : cell;
  COGNATE_SET : cell;
  AUTO_COGID : cell;
  LONG_COGID : option (cell * cell * cell)
}.

(** The two data frames after loading, filtering and sorting.  Without
    [--coding], [cognates] is the very object [autocognates]. *)
Record frames := {
  autocognates : list Row;
  coding : option (list Row)
}.

Definition cognates (t : frames) : list Row :=
  match coding t with
  | Some c => c
  | None => autocognates t
  end.

Definition with_LONG_COGID (v : option (cell * cell * cell)) (r : Row) : Row :=
  {| DOCULECT := DOCULECT r; DOCULECT_ID := DOCULECT_ID r;
     CONCEPT := CONCEPT r; IPA := IPA r; COGNATE_SET := COGNATE_SET r;
     AUTO_COGID := AUTO_COGID r; LONG_COGID := v |}.

(** [cognates.set_value(i, "LONG_COGID", v)]: through the alias it also
    changes [autocognates] when the two are one object. *)
Definition set_value (i : nat) (v : cell * cell * cell) (t : frames) : frames :=
  match coding t with
  | Some c =>
    {| autocognates := autocognates t;
       coding := Some (alter (with_LONG_COGID (Some v)) i c) |}
  | None =>
    {| autocognates := alter (with_LONG_COGID (Some v)) i (autocognates t);
       coding := None |}
  end.

(** [cognates["LONG_COGID"] = None] *)
Definition clear (t : frames) : frames :=
  match coding t with
  | Some c =>
    {| autocognates := autocognates t;
       coding := Some (map (with_LONG_COGID None) c) |}
  | None =>
    {| autocognates := map (with_LONG_COGID None) (autocognates t);
       coding := None |}
  end.

(** The frames without what has been written to LONG_COGID. *)
Definition erase (t : frames) : frames :=
  {| autocognates := map (with_LONG_COGID None) (autocognates t);
     coding := option_map (map (with_LONG_COGID None)) (coding t) |}.

(** [(r["DOCULECT_ID"], r["CONCEPT"], r["IPA"])] *)
Definition triple (r : Row) : cell * cell * cell :=
  (DOCULECT_ID r, CONCEPT r, IPA r).

(** What the loop prints. *)
Inductive notice :=
  | Grouping (who : cell * cell * cell)
             (representatives : list (cell * cell * cell * cell))
  | NoCoding (who : cell * cell * cell)
  | Pairs (pairs : gset (cell * cell)).

Record state := {
  tables : frames;
  pairs : gset (cell * cell);
  printed : list notice
}.

Section Loop.
(** [str] of a numeric cell, and the [--reset] arguments. *)
Variable repr : Z -> pystr.
Variable args_reset : list pystr.

(** [c in args.reset] for a cell [c] *)
Definition in_reset (c : cell) : bool :=
  match c with
  | Some (Str s) => bool_decide (s ∈ args_reset)
  | _ => false
  end.

Definition reset (row : Row) : bool :=
  let cognateset := COGNATE_SET row in
  (py_eq cognateset (Some (Str (u "nan"))) || negb (truthy cognateset)
   || isnull cognateset)
  || bool_decide (str repr (COGNATE_SET row) ∈ args_reset)
  || in_reset (DOCULECT_ID row)
  || in_reset (CONCEPT row).

(** Rows of [autocognates] with the row's DOCULECT, IPA and CONCEPT. *)
Definition autocognates_rows (t : frames) (row : Row) : list Row :=
  List.filter
    (fun a => py_eq (DOCULECT a) (DOCULECT row)
              && py_eq (IPA a) (IPA row)
              && py_eq (CONCEPT a) (CONCEPT row))
    (autocognates t).

(** [frame[frame[column] == cogid]] *)
Definition sharing (column : Row -> cell) (cogid : cell) (frame : list Row)
  : list Row :=
  List.filter (fun r => py_eq (column r) cogid) frame.

(** The [representatives] frame of an iteration. *)
Definition representatives (t : frames) (row : Row) : list Row :=
  if reset row then
    match autocognates_rows t row with
    | a :: _ => sharing AUTO_COGID (AUTO_COGID a) (autocognates t)
    | [] => sharing COGNATE_SET (COGNATE_SET row) (cognates t)
    end
  else sharing COGNATE_SET (COGNATE_SET row) (cognates t).

(** [representatives.iloc[0]], or the row itself on IndexError. *)
Definition representative (t : frames) (row : Row) : Row :=
  match representatives t row with
  | r :: _ => r
  | [] => row
  end.

Definition shown (r : Row) : cell * cell * cell * cell :=
  (DOCULECT_ID r, CONCEPT r, IPA r, COGNATE_SET r).

(** What an iteration prints: the grouping message of a reset row, and
    the message of the [except IndexError] of an empty frame. *)
Definition notices (t : frames) (row : Row) : list notice :=
  (if reset row
   then [Grouping (triple row) (map shown (representatives t row))]
   else [])
  ++ match representatives t row with
     | _ :: _ => []
     | [] => [NoCoding (triple row)]
     end.

(** What an iteration takes from the frames: the representative's triple
    and concept, and the messages. *)
Definition outcome (t : frames) (row : Row)
  : (cell * cell * cell) * cell * list notice :=
  (triple (representative t row), CONCEPT (representative t row),
   notices t row).

(** One iteration of [for i, row in list(cognates.iterrows())]. *)
Definition resolve_row (st : state) (i : nat) (row : Row) : state :=
  let t := tables st in
  let representative := representative t row in
  {| tables := set_value i (triple representative) t;
     pairs :=
       if py_ne (CONCEPT row) (CONCEPT representative)
       then {[ (CONCEPT row, CONCEPT representative) ]} ∪ pairs st
       else pairs st;
     printed := printed st ++ notices t row |}.

(** The loop over a snapshot of the rows, from position [i] on. *)
Fixpoint resolve_rows (st : state) (i : nat) (rows : list Row) : state :=
  match rows with
  | [] => st
  | row :: rows' => resolve_rows (resolve_row st i row) (S i) rows'
  end.

(** Stage 2 from [cognates["LONG_COGID"] = None] to [print(pairs)]. *)
Definition resolve (t : frames) : state :=
  let t := clear t in
  let st := resolve_rows {| tables := t; pairs := ∅; printed := [] |}
                         0 (cognates t) in
  {| tables := tables st; pairs := pairs st;
     printed := printed st ++ [Pairs (pairs st)] |}.

End Loop.

End Resolver.

(** ** Stage 3: compact cognate IDs (COGID) *)

Module Assigner.

(** A row of [tap-cognates-mg.tsv]: stage 2 writes a LONG_COGID on every
    row and drops the rows without CONCEPT_ID, so neither is missing. *)
Record Row := {
  LONG_COGID : value;
  CONCEPT_ID : value
}.

Section Keys.
Context `{EqDecision K}.

(** [for i in keys: if i not in COG_IDs: COG_IDs.append(i)] *)
Fixpoint collect (COG_IDs : list K) (keys : list K) : list K :=
  match keys with
  | [] => COG_IDs
  | i :: keys' =>
    if decide (i ∈ COG_IDs) then collect COG_IDs keys'
    else collect (COG_IDs ++ [i]) keys'
  end.

(** [[COG_IDs.index(x) + 1 for x in keys]] *)
Definition number (COG_IDs : list K) (keys : list K) : result (list nat) :=
  mapM (fun x => n ← index COG_IDs x; mret (n + 1)%nat) keys.

Definition assign (keys : list K) : result (list nat) :=
  number (collect [] keys) keys.
End Keys.

(** [tuple(i)] for a row of [cognates[["LONG_COGID", "CONCEPT_ID"]]] *)
Definition tuple (r : Row) : value * value := (LONG_COGID r, CONCEPT_ID r).

(** The COGID column, for either setting of [--within-meaning]. *)
Definition COGID (within_meaning : bool) (cognates : list Row)
  : result (list nat) :=
  if within_meaning then assign (map tuple cognates)
  else assign (map LONG_COGID cognates).

(** Modelled from the spec: two rows have equal keys -- the key is the
    LONG_COGID alone, or the LONG_COGID together with the concept ID when
    meaning-scoped. *)
Definition same_key (within_meaning : bool) (a b : Row) : Prop :=
  LONG_COGID a = LONG_COGID b
  /\ (within_meaning = true -> CONCEPT_ID a = CONCEPT_ID b).

(** Modelled from the spec: the number K of distinct keys of a table. *)
Definition distinct_keys (within_meaning : bool) (cognates : list Row) : nat :=
  if within_meaning
  then length (remove_dups
                 (map (fun r => (LONG_COGID r, CONCEPT_ID r)) cognates))
  else length (remove_dups (map (fun r => LONG_COGID r) cognates)).

End Assigner.

(** ** Stage 5: alignment validation *)

Module Validator.

(** A row of [tap-aligned.tsv].  ALIGNMENT and AUTO_ALIGNMENT are text
    columns: a string, or missing. *)
Record Row := {
  COGID : cell;
  ALIGNMENT : option pystr;
  AUTO_ALIGNMENT : option pystr
}.

Definition with_ALIGNMENT (v : option pystr) (r : Row) : Row :=
  {| COGID := COGID r; ALIGNMENT := v; AUTO_ALIGNMENT := AUTO_ALIGNMENT r |}.

Section Validate.
(** Whether the file has an AUTO_ALIGNMENT column. *)
Variable has_AUTO_ALIGNMENT : bool.

(** [alignments.loc[i].get('AUTO_ALIGNMENT', '-')] *)
Definition fallback (r : Row) : option pystr :=
  if has_AUTO_ALIGNMENT then AUTO_ALIGNMENT r else Some (u "-").

(** The rows of a group with their index labels. *)
Definition cognate_class (cogid : value) (alignments : list Row)
  : list (nat * Row) :=
  List.filter (fun ir => bool_decide (COGID ir.2 = Some cogid))
              (imap pair alignments).

(** [{None if isnull(x) else len(x.split()) for x in ALIGNMENT}] *)
Definition is_aligned (class : list (nat * Row)) : gset (option nat) :=
  list_to_set
    (map (fun ir => match ALIGNMENT ir.2 with
                    | None => None
                    | Some x => Some (length (split x))
                    end) class).

(** A row with its ALIGNMENT replaced by the fallback. *)
Definition reset_row (r : Row) : Row := with_ALIGNMENT (fallback r) r.

(** [alignments.set_value(i, 'ALIGNMENT', fallback of row i)] *)
Definition reset_alignment (alignments : list Row) (i : nat) : list Row :=
  match alignments !! i with
  | Some r => <[i := reset_row r]> alignments
  | None => alignments
  end.

(** The body of the loop over the groups: [class] comes from the
    grouped snapshot, the writes go to the live frame. *)
Definition validate_class (alignments : list Row) (class : list (nat * Row))
  : list Row :=
  if decide (size (is_aligned class) ≠ 1%nat)
  then foldl reset_alignment alignments (map fst class)
  else alignments.

(** The loop over the groups, from the live frame [live]: the groups come
    from the snapshot [alignments] taken by [groupby], with the group keys
    in the order [cogids] in which pandas yields them.  A row without
    COGID belongs to no group. *)
Definition validate_from (alignments live : list Row) (cogids : list value)
  : list Row :=
  foldl (fun live cogid =>
           validate_class live (cognate_class cogid alignments))
        live cogids.

(** [for cogid, cognate_class in alignments.groupby("COGID")] *)
Definition validate (cogids : list value) (alignments : list Row)
  : list Row :=
  validate_from alignments alignments cogids.

(** Group [cogid] rewrites position [i]: its counts disagree and [i] is
    one of its index labels. *)
Definition hits (alignments : list Row) (i : nat) (cogid : value) : Prop :=
  size (is_aligned (cognate_class cogid alignments)) <> 1%nat
  /\ i ∈ map fst (cognate_class cogid alignments).

End Validate.

End Validator.

(** ** The notions of the specification *)

(** Modelled from the spec: two cells hold the same value -- both are
    present and they are equal. *)
Definition same_value (a b : cell) : Prop :=
  exists v, a = Some v /\ b = Some v.

#[global] Instance same_value_dec a b : Decision (same_value a b).
Proof.
  refine (match a, b with
          | Some x, Some y => cast_if (decide (x = y))
          | _, _ => right _
          end); unfold same_value.
  - exists y. split; [f_equal; assumption|reflexivity].
  - intros (w & Hx & Hy). congruence.
  - intros (w & _ & E). discriminate E.
  - intros (w & E & _). discriminate E.
Defined.

(** Modelled from the spec: a cell without label -- missing or empty; the
    text "nan" and the number zero are read as empty. *)
Definition unlabelled (c : cell) : Prop :=
  c = None \/ c = Some (Str (u "")) \/ c = Some (Str (u "nan"))
  \/ c = Some (Num 0).

(** Modelled from the spec: the number of tokens that start in a text,
    given whether the text begins inside a token; a token is a maximal run
    of characters that are not white space. *)
Fixpoint count_from (in_token : bool) (s : pystr) : nat :=
  match s with
  | [] => 0
  | c :: s' =>
    if isspace c then count_from false s'
    else ((if in_token then 0 else 1) + count_from true s')%nat
  end.

(** Modelled from the spec: the token count of an alignment. *)
Definition token_count (alignment : pystr) : nat := count_from false alignment.

(** Modelled from the spec: the first row of a table, in table order, with
    a property -- the row at position [k], no row before it having the
    property. *)
Definition first_with {A} (P : A -> Prop) (table : list A) (k : nat) (r : A)
  : Prop :=
  table !! k = Some r /\ P r
  /\ forall k' r', (k' < k)%nat -> table !! k' = Some r' -> ~ P r'.

Module ResolverSpec.
Import Resolver.

(** Modelled from the spec: the working table -- the manual coding when
    one is given, the automatic table otherwise. *)
Definition workingTable (t : frames) : list Row :=
  match coding t with
  | Some manual => manual
  | None => autocognates t
  end.

(** Modelled from the spec: the row is marked reset -- it has no label, or
    its label, its doculect ID or its concept is a reset directive. *)
Definition marked_reset (repr : Z -> pystr) (directives : list pystr)
    (row : Row) : Prop :=
  unlabelled (COGNATE_SET row)
  \/ (exists s, COGNATE_SET row = Some (Str s) /\ s ∈ directives)
  \/ (exists z, COGNATE_SET row = Some (Num z) /\ repr z ∈ directives)
  \/ (exists s, DOCULECT_ID row = Some (Str s) /\ s ∈ directives)
  \/ (exists s, CONCEPT row = Some (Str s) /\ s ∈ directives).

(** Modelled from the spec: a row of the automatic table matches the row
    on (doculect, transcription, concept). *)
Definition matches (row a : Row) : Prop :=
  same_value (DOCULECT a) (DOCULECT row)
  /\ same_value (IPA a) (IPA row)
  /\ same_value (CONCEPT a) (CONCEPT row).

(** Modelled from the spec: the rows of a table sharing a label, in table
    order. *)
Definition with_label (column : Row -> cell) (label : cell)
    (table : list Row) : list Row :=
  base.filter (fun r => same_value (column r) label) table.

(** Modelled from the spec: the representative pool of a reset row -- with
    a match in the automatic table, the automatic rows sharing the first
    matched row's automatic label; without one, the working-table rows
    sharing the row's own label. *)
Definition pool (t : frames) (row : Row) : list Row :=
  match base.filter (matches row) (autocognates t) with
  | matched :: _ => with_label AUTO_COGID (AUTO_COGID matched) (autocognates t)
  | [] => with_label COGNATE_SET (COGNATE_SET row) (workingTable t)
  end.

End ResolverSpec.

Module ValidatorSpec.
Import Validator.

(** Modelled from the spec: the rows of a COGID group, in table order. *)
Definition group (cogid : value) (alignments : list Row) : list Row :=
  base.filter (fun r => COGID r = Some cogid) alignments.

(** Modelled from the spec: the set of distinct alignment token counts over
    a group; a missing alignment counts as the one value [None]. *)
Definition token_counts (cogid : value) (alignments : list Row)
  : gset (option nat) :=
  list_to_set
    (map (fun r => option_map token_count (ALIGNMENT r))
         (group cogid alignments)).

End ValidatorSpec.

(** ** Example tables *)

(** Scenario C: a manual row without label whose form is in the automatic
    table under label 7 together with R1, R2 and R3. *)
Definition scenario_C : Resolver.frames :=
  let R (lect id ipa : pystr) (auto : Z) :=
    {| Resolver.DOCULECT := Some (Str lect);
       Resolver.DOCULECT_ID := Some (Str id);
       Resolver.CONCEPT := Some (Str (u "hand"));
       Resolver.IPA := Some (Str ipa);
       Resolver.COGNATE_SET := None;
       Resolver.AUTO_COGID := Some (Num auto);
       Resolver.LONG_COGID := None |} in
  {| Resolver.autocognates :=
       [R (u "Abui") (u "abui1241") (u "tang") 7%Z;
        R (u "Kamang") (u "kama1365") (u "taŋ") 7%Z;
        R (u "Sawila") (u "sawi1256") (u "tana") 7%Z];
     Resolver.coding := Some [R (u "Kamang") (u "kama1365") (u "taŋ") 0%Z] |}.

(** Two forms under one manual label with different concepts. *)
Definition cross_meaning : Resolver.frames :=
  let R (id concept : pystr) :=
    {| Resolver.DOCULECT := Some (Str id);
       Resolver.DOCULECT_ID := Some (Str id);
       Resolver.CONCEPT := Some (Str concept);
       Resolver.IPA := Some (Str (u "tang"));
       Resolver.COGNATE_SET := Some (Num 1);
       Resolver.AUTO_COGID := Some (Num 1);
       Resolver.LONG_COGID := None |} in
  {| Resolver.autocognates :=
       [R (u "abui1241") (u "hand"); R (u "kama1365") (u "arm")];
     Resolver.coding := None |}.

(** Scenario D: a class with token counts 3 and 4, and one with 3 and 3. *)
Definition scenario_D : list Validator.Row :=
  [ {| Validator.COGID := Some (Num 1);
       Validator.ALIGNMENT := Some (u "t a ŋ");
       Validator.AUTO_ALIGNMENT := Some (u "t a ŋ -") |};
    {| Validator.COGID := Some (Num 2);
       Validator.ALIGNMENT := Some (u "m a t");
       Validator.AUTO_ALIGNMENT := Some (u "m a t") |};
    {| Validator.COGID := Some (Num 1);
       Validator.ALIGNMENT := Some (u "t a n a");
       Validator.AUTO_ALIGNMENT := Some (u "t a n a") |};
    {| Validator.COGID := Some (Num 2);
       Validator.ALIGNMENT := Some (u "m o t");
       Validator.AUTO_ALIGNMENT := None |} ].

(** ** Notions used to state further properties *)

(** The character a character of the form is scanned as. *)
Definition subst_char (c : char) : char :=
  match substitute [c] with
  | c' :: _ => c'
  | [] => c
  end.

(** The characters the scanner treats as markers: the stress mark, the two
    boundary markers and the syllable break. *)
Definition marker (c : char) : bool :=
  (c =? 39) || (c =? 95) || (c =? 45) || (c =? 46).

(** Removal of the stress marks of a string. *)
Definition unstressed (s : pystr) : pystr :=
  List.filter (fun c => negb (c =? 39)) s.

(** The characters of a scanned form that are not dropped: all but the
    stress marks and the syllable breaks. *)
Definition kept (c : char) : bool := negb (c =? 39) && negb (c =? 46).

(** A segment: a body free of marker characters, after an optional stress
    mark. *)
Definition segment_shape (token : pystr) : Prop :=
  exists body,
    body <> [] /\ Forall (fun c => marker c = false) body
    /\ (token = body \/ token = 39 :: body).

(** A token yielded inside the loop: a boundary marker or a segment. *)
Definition token_shape (token : pystr) : Prop :=
  token = u "_" \/ token = u "-" \/ segment_shape token.

(** Stage 0, [data["IPA"] = [x.replace(" ", "_") for x in data["IPA"]]]:
    the rows without IPA have been dropped; [replace] exists only on
    strings. *)
Definition IPA_entry (x : cell) : result pystr :=
  match x with
  | Some (Str s) => Ok (replace (u " ") (u "_") s)
  | _ => Raise AttributeError
  end.

(** Stage 0, an entry of [data["TOKENS"]]: [" ".join(tokenize(x))]. *)
Definition TOKENS_entry (consonants vowels : list pystr) (x : pystr)
  : result pystr :=
  tokens ← tokenize consonants vowels x;
  mret (join (u " ") tokens).

(** Stage 0, an entry of [data["COMMENT"]] for a comment that is a
    string: [x.replace("\n", "; ")]. *)
Definition COMMENT_entry (x : pystr) : pystr := replace newline (u "; ") x.

(** The row belongs to a group that is iterated and whose token counts
    disagree. *)
Definition in_bad_group (cogids : list value)
    (alignments : list Validator.Row) (r : Validator.Row) : bool :=
  match Validator.COGID r with
  | Some cogid =>
    bool_decide
      (cogid ∈ cogids
       /\ size (Validator.is_aligned (Validator.cognate_class cogid alignments))
          <> 1%nat)
  | None => false
  end.

(** The validated table described row by row: a row of a bad group gets
    its fallback, every other row stays. *)
Definition validated (has_AUTO_ALIGNMENT : bool) (cogids : list value)
    (alignments : list Validator.Row) : list Validator.Row :=
  map (fun r => if in_bad_group cogids alignments r
                then Validator.reset_row has_AUTO_ALIGNMENT r else r)
      alignments.

(** ** Further example tables *)

Definition form_row (lect id concept ipa : pystr) (label auto : cell)
  : Resolver.Row :=
  {| Resolver.DOCULECT := Some (Str lect);
     Resolver.DOCULECT_ID := Some (Str id);
     Resolver.CONCEPT := Some (Str concept);
     Resolver.IPA := Some (Str ipa);
     Resolver.COGNATE_SET := label;
     Resolver.AUTO_COGID := auto;
     Resolver.LONG_COGID := None |}.

(** Two manual rows without label whose forms are in the automatic table
    under label 7, and a third one whose form is not there. *)
Definition two_resets : Resolver.frames :=
  {| Resolver.autocognates :=
       [form_row (u "Abui") (u "abui1241") (u "hand") (u "tang")
          None (Some (Num 7));
        form_row (u "Kamang") (u "kama1365") (u "hand") (u "taŋ")
          None (Some (Num 7));
        form_row (u "Sawila") (u "sawi1256") (u "hand") (u "tana")
          None (Some (Num 7))];
     Resolver.coding :=
       Some [form_row (u "Kamang") (u "kama1365") (u "hand") (u "taŋ")
               None None;
             form_row (u "Sawila") (u "sawi1256") (u "hand") (u "tana")
               None None;
             form_row (u "Wersing") (u "wers1238") (u "hand") (u "teŋ")
               None None] |}.

Definition merged_rows : list Assigner.Row :=
  [ {| Assigner.LONG_COGID := Str (u "('abui1241', 'hand', 'tang')");
       Assigner.CONCEPT_ID := Num 12 |};
    {| Assigner.LONG_COGID := Str (u "('abui1241', 'hand', 'tang')");
       Assigner.CONCEPT_ID := Num 40 |};
    {| Assigner.LONG_COGID := Str (u "('kama1365', 'stone', 'wat')");
       Assigner.CONCEPT_ID := Num 12 |} ].

(** A run in which the labels of a numeric column are listed in
    first-seen order by every evaluation of [list(set(column))], and the
    missing value before them for the rows at even positions and after
    them for the others. *)
Definition moving_nan (k : nat) (column : list cell) : list cell :=
  let labels := Assigner.collect [] (List.filter (fun c => negb (isnull c)) column) in
  if forallb (fun c => negb (isnull c)) column then labels
  else if Nat.even k then None :: labels else labels ++ [None].

(** An automatic table that starts with a row of another doculect under
    another automatic label; of the three manual rows without label, the
    second has a form the automatic table does not have. *)
Definition mixed_automatic : Resolver.frames :=
  {| Resolver.autocognates :=
       [form_row (u "Abui") (u "abui1241") (u "hand") (u "tang")
          None (Some (Num 3));
        form_row (u "Sawila") (u "sawi1256") (u "hand") (u "tana")
          None (Some (Num 7));
        form_row (u "Kamang") (u "kama1365") (u "hand") (u "taŋ")
          None (Some (Num 7));
        form_row (u "Kamang") (u "kama1365") (u "stone") (u "wat")
          None (Some (Num 9))];
     Resolver.coding :=
       Some [form_row (u "Kamang") (u "kama1365") (u "hand") (u "taŋ")
               None None;
             form_row (u "Wersing") (u "wers1238") (u "hand") (u "teŋ")
               None None;
             form_row (u "Sawila") (u "sawi1256") (u "hand") (u "tana")
               None None] |}.

(** A table without manual coding whose first row has another label than
    the two rows after it. *)
Definition labelled_rows : Resolver.frames :=
  {| Resolver.autocognates :=
       [form_row (u "Abui") (u "abui1241") (u "stone") (u "wi")
          (Some (Num 2)) (Some (Num 1));
        form_row (u "Kamang") (u "kama1365") (u "hand") (u "taŋ")
          (Some (Num 1)) (Some (Num 1));
        form_row (u "Sawila") (u "sawi1256") (u "arm") (u "tana")
          (Some (Num 1)) (Some (Num 1))];
     Resolver.coding := None |}.

(** A group with token counts 3 and 4, and a group whose two alignments
    have three tokens each and differ in their number of characters. *)
Definition uneven_rows : list Validator.Row :=
  [ {| Validator.COGID := Some (Num 1);
       Validator.ALIGNMENT := Some (u "t a ŋ");
       Validator.AUTO_ALIGNMENT := Some (u "t a ŋ -") |};
    {| Validator.COGID := Some (Num 2);
       Validator.ALIGNMENT := Some (u "m aː t");
       Validator.AUTO_ALIGNMENT := Some (u "m aː t") |};
    {| Validator.COGID := Some (Num 1);
       Validator.ALIGNMENT := Some (u "t a n a");
       Validator.AUTO_ALIGNMENT := Some (u "t a n a") |};
    {| Validator.COGID := Some (Num 2);
       Validator.ALIGNMENT := Some (u "m o t");
       Validator.AUTO_ALIGNMENT := None |} ].

(** * Properties *)

Ltac by_decide := apply (bool_decide_unpack _); vm_compute; exact I.

(** ** The segmenter *)

Example utf8_stress : u "ˈ" = [712].
Proof. reflexivity. Qed.

Example scenario_A :
  tokenize clpa_consonants clpa_vowels (u "pai") = Ok [u "p"; u "a"; u "i"].
Proof. vm_compute. reflexivity. Qed.

Section SegmenterFacts.
Variables consonants vowels : list pystr.

Lemma run_cons st c form :
  run consonants vowels st (c :: form) =
  ((step consonants vowels st c).1
     ++ (run consonants vowels (step consonants vowels st c).2 form).1,
   (run consonants vowels (step consonants vowels st c).2 form).2).
Proof.
  simpl. destruct (step consonants vowels st c) as [out st']. simpl.
  destruct (run consonants vowels st' form) as [outs st'']. reflexivity.
Qed.

Lemma run_cons_snd st c form :
  (run consonants vowels st (c :: form)).2 =
  (run consonants vowels (step consonants vowels st c).2 form).2.
Proof. rewrite run_cons. reflexivity. Qed.

Lemma run_app st a b :
  run consonants vowels st (a ++ b) =
  ((run consonants vowels st a).1
     ++ (run consonants vowels (run consonants vowels st a).2 b).1,
   (run consonants vowels (run consonants vowels st a).2 b).2).
Proof.
  revert st. induction a as [|c a IH]; intros st.
  - simpl. destruct (run consonants vowels st b). reflexivity.
  - rewrite <- app_comm_cons, !run_cons, IH. simpl.
    rewrite app_assoc. reflexivity.
Qed.

Lemma run_app_snd st a b :
  (run consonants vowels st (a ++ b)).2 =
  (run consonants vowels (run consonants vowels st a).2 b).2.
Proof. rewrite run_app. reflexivity. Qed.

Lemma scan_run st form :
  scan consonants vowels st form =
  (run consonants vowels st form).1
    ++ [segment (run consonants vowels st form).2].
Proof. unfold scan. destruct (run consonants vowels st form). reflexivity. Qed.

(** A symbol of the consonant branch: it passed the three marker tests. *)
Lemma classify_consonant symbol :
  symbol ∉ [u "'"] -> symbol ∉ [u "_"; u "-"] -> symbol ∉ [u "."] ->
  symbol ∈ consonants -> classify consonants vowels symbol = Consonant.
Proof.
  intros H1 H2 H3 H4. unfold classify.
  rewrite !decide_False by assumption. rewrite decide_True by assumption.
  reflexivity.
Qed.

Lemma classify_vowel symbol :
  symbol ∉ [u "'"] -> symbol ∉ [u "_"; u "-"] -> symbol ∉ [u "."] ->
  symbol ∉ consonants -> symbol ∈ vowels ->
  classify consonants vowels symbol = Vowel.
Proof.
  intros H1 H2 H3 H4 H5. unfold classify.
  rewrite !decide_False by assumption. rewrite decide_True by assumption.
  reflexivity.
Qed.

Lemma step_vowel st c :
  branch_of consonants vowels c = Vowel ->
  step consonants vowels st c =
  (yield_if (segment st),
   {| segment := if stress st then u "'" ++ substitute [c] else substitute [c];
      stress := stress st |}).
Proof. unfold branch_of, step. intros ->. reflexivity. Qed.

Lemma step_consonant st c :
  branch_of consonants vowels c = Consonant ->
  step consonants vowels st c =
  (yield_if (segment st), {| segment := substitute [c]; stress := false |}).
Proof. unfold branch_of, step. intros ->. reflexivity. Qed.

Lemma step_stress_mark st c :
  branch_of consonants vowels c = StressMark ->
  step consonants vowels st c =
  (yield_if (segment st), {| segment := []; stress := true |}).
Proof. unfold branch_of, step. intros ->. reflexivity. Qed.

(** Only the consonant branch assigns [stress = False]. *)
Lemma step_keeps_stress st c :
  branch_of consonants vowels c <> Consonant ->
  stress st = true ->
  stress (step consonants vowels st c).2 = true.
Proof.
  unfold branch_of, step. intros Hc Hs.
  destruct (classify consonants vowels (substitute [c])); simpl; congruence.
Qed.

Lemma run_keeps_stress st mid :
  Forall (fun c => branch_of consonants vowels c <> Consonant) mid ->
  stress st = true ->
  stress (run consonants vowels st mid).2 = true.
Proof.
  intros Hmid. revert st. induction Hmid as [|c mid Hc _ IH]; intros st Hs.
  - assumption.
  - rewrite run_cons_snd. apply IH, step_keeps_stress; assumption.
Qed.

Lemma run_to_vowel st mid v :
  stress st = true ->
  Forall (fun c => branch_of consonants vowels c <> Consonant) mid ->
  branch_of consonants vowels v = Vowel ->
  (run consonants vowels st (mid ++ [v])).2 =
  {| segment := u "'" ++ substitute [v]; stress := true |}.
Proof.
  intros Hs Hmid Hv.
  rewrite run_app_snd, run_cons_snd, (step_vowel _ _ Hv). simpl.
  rewrite (run_keeps_stress _ _ Hmid Hs). reflexivity.
Qed.

Lemma stress_mark_not_star c :
  branch_of consonants vowels c = StressMark -> [c] <> u "*".
Proof.
  intros H E.
  assert (c = 42) as -> by (injection E as E'; rewrite E'; reflexivity).
  revert H. unfold branch_of, classify.
  change (substitute [42]) with [42].
  repeat case_decide; try discriminate.
  match goal with H : [42] ∈ _ |- _ =>
    apply list_elem_of_singleton in H; discriminate end.
Qed.

Lemma tokenize_cons c form :
  tokenize consonants vowels (c :: form) =
  Ok (scan consonants vowels start
        (if decide ([c] = u "*") then form else c :: form)).
Proof. reflexivity. Qed.

(** C2 (as the code has it): with [t] and [m] consonants and [a] a vowel,
    the transcription "ˈtama" is tokenized as t, a, m, a.  The consonant
    that follows the stress marker clears the pending stress, so the
    first vowel carries no stress tag. *)
Theorem tokenize_stress_before_consonant :
  u "t" ∈ consonants -> u "m" ∈ consonants ->
  u "a" ∉ consonants -> u "a" ∈ vowels ->
  tokenize consonants vowels (u "ˈtama") = Ok [u "t"; u "a"; u "m"; u "a"].
Proof.
  intros Ht Hm Hna Ha.
  assert (Bs : branch_of consonants vowels 712 = StressMark) by reflexivity.
  assert (Bt : branch_of consonants vowels 116 = Consonant).
  { apply classify_consonant; try assumption;
      intros H; repeat (apply elem_of_cons in H as [H|H]; [discriminate|]);
      apply elem_of_nil in H; contradiction. }
  assert (Bm : branch_of consonants vowels 109 = Consonant).
  { apply classify_consonant; try assumption;
      intros H; repeat (apply elem_of_cons in H as [H|H]; [discriminate|]);
      apply elem_of_nil in H; contradiction. }
  assert (Ba : branch_of consonants vowels 97 = Vowel).
  { apply classify_vowel; try assumption;
      intros H; repeat (apply elem_of_cons in H as [H|H]; [discriminate|]);
      apply elem_of_nil in H; contradiction. }
  change (u "ˈtama") with [712; 116; 97; 109; 97].
  rewrite tokenize_cons, scan_run.
  rewrite decide_False by discriminate.
  rewrite !run_cons.
  rewrite (step_stress_mark _ _ Bs). simpl fst; simpl snd.
  rewrite (step_consonant _ _ Bt). simpl fst; simpl snd.
  rewrite (step_vowel _ _ Ba). simpl fst; simpl snd.
  rewrite (step_consonant _ _ Bm). simpl fst; simpl snd.
  rewrite (step_vowel _ _ Ba). reflexivity.
Qed.

(** C3 (as the code has it): scanning a vowel leaves the pending-stress
    flag as it is; only a consonant clears it.  When a stress marker is
    followed by two vowel symbols and no consonant stands between the
    marker and the second vowel, the segments started by both vowels
    carry the stress prefix. *)
Theorem stress_persists_over_vowels st c0 mid1 v1 mid2 v2 :
  branch_of consonants vowels c0 = StressMark ->
  Forall (fun c => branch_of consonants vowels c <> Consonant) mid1 ->
  branch_of consonants vowels v1 = Vowel ->
  Forall (fun c => branch_of consonants vowels c <> Consonant) mid2 ->
  branch_of consonants vowels v2 = Vowel ->
  (run consonants vowels st (c0 :: mid1 ++ [v1])).2 =
    {| segment := u "'" ++ substitute [v1]; stress := true |}
  /\ (run consonants vowels st (c0 :: mid1 ++ [v1] ++ mid2 ++ [v2])).2 =
    {| segment := u "'" ++ substitute [v2]; stress := true |}
  /\ tokenize consonants vowels [c0; v1; v2] =
    Ok [u "'" ++ substitute [v1]; u "'" ++ substitute [v2]].
Proof.
  intros B0 Hmid1 B1 Hmid2 B2.
  split; [|split].
  - rewrite run_cons_snd, (step_stress_mark _ _ B0).
    apply run_to_vowel; trivial.
  - replace (mid1 ++ [v1] ++ mid2 ++ [v2])
      with ((mid1 ++ [v1]) ++ (mid2 ++ [v2]))
      by (rewrite <- app_assoc; reflexivity).
    rewrite run_cons_snd, (step_stress_mark _ _ B0), run_app_snd.
    rewrite (run_to_vowel _ mid1 v1) by trivial.
    apply run_to_vowel; trivial.
  - rewrite tokenize_cons, decide_False by (apply stress_mark_not_star, B0).
    rewrite scan_run, !run_cons.
    rewrite (step_stress_mark _ _ B0). simpl fst; simpl snd.
    rewrite (step_vowel _ _ B1). simpl fst; simpl snd.
    rewrite (step_vowel _ _ B2). reflexivity.
Qed.

(** C8 (as the code has it): on every non-empty transcription [tokenize]
    returns, and what it returns ends with the final buffer of the scan,
    empty or not, so it has at least one element. *)
Theorem tokenize_total_nonempty form :
  form <> [] ->
  exists tokens form',
    tokenize consonants vowels form = Ok tokens
    /\ (form' = form \/ u "*" ++ form' = form)
    /\ tokens = (run consonants vowels start form').1
                  ++ [segment (run consonants vowels start form').2]
    /\ (1 <= length tokens)%nat.
Proof.
  destruct form as [|c form]; [congruence|]. intros _.
  rewrite tokenize_cons.
  destruct (decide ([c] = u "*")) as [E|E].
  - exists (scan consonants vowels start form), form.
    rewrite scan_run. repeat split.
    + right. injection E as ->. reflexivity.
    + rewrite length_app. simpl. lia.
  - exists (scan consonants vowels start (c :: form)), (c :: form).
    rewrite scan_run. repeat split.
    + left. reflexivity.
    + rewrite length_app. simpl. lia.
Qed.

End SegmenterFacts.

(** C2: on the CLPA excerpt the code does not return t, 'a, m, a. *)
Lemma tokenize_tama_unstressed :
  tokenize clpa_consonants clpa_vowels (u "ˈtama")
  <> Ok [u "t"; u "'a"; u "m"; u "a"].
Proof. vm_compute. discriminate. Qed.

Lemma tokenize_stress_before_consonant_witness :
  tokenize clpa_consonants clpa_vowels (u "ˈtama")
  = Ok [u "t"; u "a"; u "m"; u "a"].
Proof. apply tokenize_stress_before_consonant; by_decide. Defined.

(** C3: a stress marker before two vowels stresses both segments. *)
Lemma tokenize_two_vowels_both_stressed :
  tokenize clpa_consonants clpa_vowels (u "ˈai") = Ok [u "'a"; u "'i"].
Proof. vm_compute. reflexivity. Qed.

Lemma stress_persists_over_vowels_witness :
  (run clpa_consonants clpa_vowels start (u "ˈ" ++ [] ++ u "a")).2 =
    {| segment := u "'a"; stress := true |}
  /\ (run clpa_consonants clpa_vowels start
        (u "ˈ" ++ [] ++ u "a" ++ u "." ++ u "i")).2 =
    {| segment := u "'i"; stress := true |}
  /\ tokenize clpa_consonants clpa_vowels (u "ˈai") = Ok [u "'a"; u "'i"].
Proof.
  apply (stress_persists_over_vowels clpa_consonants clpa_vowels
           start 712 [] 97 (u ".") 105).
  - reflexivity.
  - constructor.
  - reflexivity.
  - repeat constructor. vm_compute. discriminate.
  - reflexivity.
Defined.

(** C8: the empty transcription raises IndexError at [form[0]]. *)
Lemma tokenize_empty_raises :
  tokenize clpa_consonants clpa_vowels (u "") = Raise IndexError.
Proof. reflexivity. Qed.

Lemma tokenize_total_nonempty_witness :
  exists tokens form',
    tokenize clpa_consonants clpa_vowels (u "*pa.") = Ok tokens
    /\ (form' = u "*pa." \/ u "*" ++ form' = u "*pa.")
    /\ tokens = (run clpa_consonants clpa_vowels start form').1
                  ++ [segment (run clpa_consonants clpa_vowels start form').2]
    /\ (1 <= length tokens)%nat.
Proof.
  apply (tokenize_total_nonempty clpa_consonants clpa_vowels (u "*pa.")).
  discriminate.
Defined.

Example tokenize_final_buffer_empty :
  tokenize clpa_consonants clpa_vowels (u "*pa.") = Ok [u "p"; u "a"; u ""].
Proof. vm_compute. reflexivity. Qed.

(** ** The alignment synthesizer *)

Lemma split_from_word word w s :
  Forall (fun c => isspace c = false) w ->
  split_from word (w ++ s) = split_from (word ++ w) s.
Proof.
  intros Hw. revert word. induction Hw as [|c w Hc _ IH]; intros word.
  - rewrite app_nil_r. reflexivity.
  - simpl. rewrite Hc, IH, <- app_assoc. reflexivity.
Qed.

Lemma split_word w :
  w <> [] -> Forall (fun c => isspace c = false) w -> split w = [w].
Proof.
  intros Hne Hw. unfold split.
  rewrite <- (app_nil_r w) at 1. rewrite split_from_word by assumption.
  simpl. destruct w; [congruence|reflexivity].
Qed.

Lemma split_from_space word s :
  split_from word (u " " ++ s) = yield_if word ++ split s.
Proof. reflexivity. Qed.

(** Joining with single spaces and splitting again returns the words. *)
Lemma split_join tokens :
  Forall (fun t => t <> [] /\ Forall (fun c => isspace c = false) t) tokens ->
  split (join (u " ") tokens) = tokens.
Proof.
  induction 1 as [|t tokens [Hne Ht] Htokens IH]; [reflexivity|].
  destruct tokens as [|t' tokens].
  - simpl. apply split_word; assumption.
  - change (join (u " ") (t :: t' :: tokens))
      with (t ++ u " " ++ join (u " ") (t' :: tokens)).
    unfold split at 1. rewrite split_from_word by assumption.
    rewrite split_from_space, IH.
    destruct t; [congruence|reflexivity].
Qed.

Lemma gap_free_join tokens :
  Forall plain tokens -> gap_free (join (u " ") tokens) = tokens.
Proof.
  intros H. unfold gap_free. rewrite split_join.
  - induction H as [|t tokens (_ & Hgap & _) _ IH]; [reflexivity|].
    simpl. rewrite bool_decide_eq_false_2 by assumption. simpl.
    rewrite IH. reflexivity.
  - eapply Forall_impl; [exact H|]. intros t (? & _ & ?). split; assumption.
Qed.

Section AlignmentFacts.
Variables consonants vowels : list pystr.
Variable repr : Z -> pystr.

(** What [alignment] yields for a row with a string in ALIGNMENT: the
    joined tokens, or the alignment itself when its gap-free projection is
    the token list. *)
Lemma alignment_entry_cases form al tokens :
  tokenize consonants vowels (normalize repr form) = Ok tokens ->
  exists out,
    alignment_entry consonants vowels repr form (Some (Str al)) = Ok out
    /\ (out = join (u " ") tokens
        \/ (out = replace newline (u ";") al /\ gap_free out = tokens)).
Proof.
  intros Htok. unfold alignment_entry. rewrite Htok. simpl.
  destruct (decide (replace newline (u ";") al ∈ [u ""; u "nan"])).
  - exists (join (u " ") tokens). auto.
  - destruct (decide (tokens <> gap_free (replace newline (u ";") al)))
      as [Hstale|Hkept].
    + exists (join (u " ") tokens). auto.
    + apply dec_stable in Hkept.
      exists (replace newline (u ";") al). auto.
Qed.

Lemma tokenize_ok form :
  form <> [] -> exists tokens, tokenize consonants vowels form = Ok tokens.
Proof. destruct form; [congruence|]. rewrite tokenize_cons. eauto. Qed.

(** C1 (as the code has it): for a Form with a non-empty transcription and
    a string in its ALIGNMENT cell, [alignment] yields a string [out] that
    is either the alignment kept (after the newline replacement) or the
    joined tokenization of the normalized transcription.  A kept alignment
    has exactly that tokenization as its gap-free projection; the yielded
    string has it in every case in which no token is empty, the gap symbol
    or contains whitespace. *)
Theorem alignment_round_trip form al :
  normalize repr form <> [] ->
  exists tokens out,
    tokenize consonants vowels (normalize repr form) = Ok tokens
    /\ alignment_entry consonants vowels repr form (Some (Str al)) = Ok out
    /\ (out = join (u " ") tokens
        \/ (out = replace newline (u ";") al /\ gap_free out = tokens))
    /\ (Forall plain tokens -> gap_free out = tokens).
Proof.
  intros Hne.
  destruct (tokenize_ok _ Hne) as [tokens Htok].
  destruct (alignment_entry_cases form al tokens Htok) as (out & Hout & Hcase).
  exists tokens, out. repeat split; try assumption.
  intros Hplain. destruct Hcase as [->|[_ Hkept]].
  - apply gap_free_join, Hplain.
  - exact Hkept.
Qed.

Lemma replace_app old new a b :
  replace old new (a ++ b) = replace old new a ++ replace old new b.
Proof. unfold replace. rewrite map_app, concat_app. reflexivity. Qed.

Lemma replace_char o new c :
  replace [o] new [c] = if decide (c = o) then new else [c].
Proof.
  unfold replace. simpl. rewrite app_nil_r.
  destruct (decide ([c] = [o])), (decide (c = o)); congruence.
Qed.

Lemma normalize_char c :
  replace (u " ") (u "_") (replace newline (u ";") [c]) =
  [if decide (c = 10) then 59 else if decide (c = 32) then 95 else c].
Proof.
  change newline with [10]. change (u ";") with [59].
  change (u " ") with [32]. change (u "_") with [95].
  rewrite replace_char.
  destruct (decide (c = 10)) as [->|Hc]; [reflexivity|].
  rewrite replace_char. destruct (decide (c = 32)); reflexivity.
Qed.

(** The two replacements act character by character. *)
Lemma normalize_map form :
  normalize repr form =
  map (fun c => if decide (c = 10) then 59
                else if decide (c = 32) then 95 else c) (str repr form).
Proof.
  unfold normalize. induction (str repr form) as [|c s IH]; [reflexivity|].
  change (c :: s) with ([c] ++ s).
  rewrite !replace_app, IH, normalize_char. reflexivity.
Qed.

Lemma step_underscore st :
  step consonants vowels st 95 =
  (yield_if (segment st) ++ [u "_"], {| segment := []; stress := stress st |}).
Proof. reflexivity. Qed.

(** An underscore in the scanned string is yielded as a token of its own. *)
Lemma scan_underscore st a b :
  exists before after,
    scan consonants vowels st (a ++ 95 :: b) = before ++ [u "_"] ++ after.
Proof.
  exists ((run consonants vowels st a).1
            ++ yield_if (segment (run consonants vowels st a).2)).
  eexists.
  rewrite scan_run, run_app, run_cons, step_underscore. simpl.
  rewrite <- !app_assoc. reflexivity.
Qed.

Lemma tokenize_underscore a b :
  exists before after,
    tokenize consonants vowels (a ++ 95 :: b) =
    Ok (before ++ [u "_"] ++ after).
Proof.
  destruct a as [|c a].
  - destruct (scan_underscore start [] b) as (x & y & E).
    exists x, y. simpl app at 1. rewrite tokenize_cons.
    rewrite decide_False by discriminate. f_equal. exact E.
  - rewrite <- app_comm_cons, tokenize_cons.
    destruct (decide ([c] = u "*")) as [Hc|Hc].
    + destruct (scan_underscore start a b) as (x & y & E).
      exists x, y. f_equal. exact E.
    + destruct (scan_underscore start (c :: a) b) as (x & y & E).
      exists x, y. f_equal. exact E.
Qed.

(** C10 (as the code has it): [alignment] works on the transcription with
    every newline replaced by ";" and every space by "_", and on the
    existing alignment with its newlines replaced by ";".  A space of the
    transcription becomes a token "_" of its own in the synthesized
    alignment.  The alignment yielded is the joined tokenization of the
    normalized transcription or the kept alignment, and its gap-free
    projection is that tokenization whenever no token is empty, the gap
    symbol or contains whitespace.  (Code points: 10 is the newline, 59 is
    ";", 32 the space and 95 is "_".) *)
Theorem alignment_uses_normalized_form form :
  normalize repr form =
    map (fun c => if decide (c = 10) then 59
                  else if decide (c = 32) then 95 else c) (str repr form)
  /\ ((10 ∉ normalize repr form) /\ (32 ∉ normalize repr form))
  /\ (forall pre post, str repr form = pre ++ u " " ++ post ->
      exists before after,
        tokenize consonants vowels (normalize repr form)
          = Ok (before ++ [u "_"] ++ after)
        /\ alignment_entry consonants vowels repr form (Some (Str (u "")))
          = Ok (join (u " ") (before ++ [u "_"] ++ after)))
  /\ (forall al tokens,
      tokenize consonants vowels (normalize repr form) = Ok tokens ->
      exists out,
        alignment_entry consonants vowels repr form (Some (Str al)) = Ok out
        /\ (out = join (u " ") tokens \/ out = replace newline (u ";") al)
        /\ (Forall plain tokens -> gap_free out = tokens)).
Proof.
  split; [apply normalize_map|]. split; [|split].
  - rewrite normalize_map. split; intros H;
      apply list_elem_of_fmap in H as (c & Hc & _);
      repeat case_decide; first [discriminate | congruence].
  - intros pre post Hstr.
    assert (Hn : normalize repr form =
                 normalize repr (Some (Str pre)) ++ 95 ::
                 normalize repr (Some (Str post))).
    { rewrite !normalize_map, Hstr. simpl str. rewrite map_app. reflexivity. }
    destruct (tokenize_underscore (normalize repr (Some (Str pre)))
                (normalize repr (Some (Str post)))) as (x & y & E).
    exists x, y. rewrite Hn. split; [exact E|].
    unfold alignment_entry. cbv zeta. rewrite Hn.
    change (replace newline (u ";") (u "")) with (u "").
    rewrite decide_True by by_decide.
    rewrite E. reflexivity.
  - intros al tokens Htok.
    destruct (alignment_entry_cases form al tokens Htok) as (out & Hout & Hcase).
    exists out. split; [exact Hout|]. split.
    + destruct Hcase as [?|[? _]]; auto.
    + intros Hplain. destruct Hcase as [->|[_ Hkept]].
      * apply gap_free_join, Hplain.
      * exact Hkept.
Qed.

End AlignmentFacts.

(** C1: a morpheme boundary in the form is tokenized as "-", which the
    gap filter removes from the synthesized alignment. *)
Lemma alignment_gap_token_lost :
  alignment_entry clpa_consonants clpa_vowels repr_int
    (Some (Str (u "pa-ti"))) (Some (Str (u ""))) = Ok (u "p a - t i")
  /\ tokenize clpa_consonants clpa_vowels
       (normalize repr_int (Some (Str (u "pa-ti"))))
     = Ok [u "p"; u "a"; u "-"; u "t"; u "i"]
  /\ gap_free (u "p a - t i") = [u "p"; u "a"; u "t"; u "i"].
Proof. vm_compute. repeat split. Qed.

Lemma alignment_round_trip_witness :
  exists tokens out,
    tokenize clpa_consonants clpa_vowels
      (normalize repr_int (Some (Str (u "ˈapa ti")))) = Ok tokens
    /\ alignment_entry clpa_consonants clpa_vowels repr_int
         (Some (Str (u "ˈapa ti"))) (Some (Str (u "'a - p a _ t i")))
       = Ok out
    /\ (out = join (u " ") tokens
        \/ (out = replace newline (u ";") (u "'a - p a _ t i")
            /\ gap_free out = tokens))
    /\ (Forall plain tokens -> gap_free out = tokens).
Proof.
  apply (alignment_round_trip clpa_consonants clpa_vowels repr_int
           (Some (Str (u "ˈapa ti"))) (u "'a - p a _ t i")).
  vm_compute. discriminate.
Defined.

Example alignment_kept :
  alignment_entry clpa_consonants clpa_vowels repr_int
    (Some (Str (u "ˈapa ti"))) (Some (Str (u "'a - p a _ t i")))
  = Ok (u "'a - p a _ t i").
Proof. vm_compute. reflexivity. Qed.

Example alignment_stale :
  alignment_entry clpa_consonants clpa_vowels repr_int
    (Some (Str (u "ˈapa ti"))) (Some (Str (u "a p - a t i")))
  = Ok (u "'a p a _ t i").
Proof. vm_compute. reflexivity. Qed.

Example alignment_missing_cell :
  alignment_entry clpa_consonants clpa_vowels repr_int
    (Some (Str (u "pa"))) None = Raise AttributeError.
Proof. reflexivity. Qed.

(** C10: a trailing space becomes a final "_" followed by an empty last
    token, which the joined alignment cannot hand back. *)
Lemma alignment_trailing_space :
  alignment_entry clpa_consonants clpa_vowels repr_int
    (Some (Str (u "pa "))) (Some (Str (u ""))) = Ok (u "p a _ ")
  /\ tokenize clpa_consonants clpa_vowels
       (normalize repr_int (Some (Str (u "pa "))))
     = Ok [u "p"; u "a"; u "_"; u ""]
  /\ gap_free (u "p a _ ") = [u "p"; u "a"; u "_"].
Proof. vm_compute. repeat split. Qed.

Lemma alignment_uses_normalized_form_witness :
  exists out,
    alignment_entry clpa_consonants clpa_vowels repr_int
      (Some (Str (u "pa ti"))) (Some (Str (u "p a t i"))) = Ok out
    /\ (out = join (u " ") [u "p"; u "a"; u "_"; u "t"; u "i"]
        \/ out = replace newline (u ";") (u "p a t i"))
    /\ (Forall plain [u "p"; u "a"; u "_"; u "t"; u "i"] ->
        gap_free out = [u "p"; u "a"; u "_"; u "t"; u "i"]).
Proof.
  apply (alignment_uses_normalized_form clpa_consonants clpa_vowels repr_int
           (Some (Str (u "pa ti")))).
  vm_compute. reflexivity.
Defined.

Example tokenize_raw_space :
  tokenize clpa_consonants clpa_vowels (u "pa ti")
  = Ok [u "p"; u "a "; u "t"; u "i"].
Proof. vm_compute. reflexivity. Qed.

(** ** Fallible list operations *)

Section ResultFacts.
Context {A B : Type}.

Lemma mapM_Ok (f : A -> result B) l out :
  mapM f l = Ok out <-> Forall2 (fun x y => f x = Ok y) l out.
Proof.
  revert out. induction l as [|x l IH]; intros out; simpl.
  - split.
    + intros [= <-]. constructor.
    + intros H. inversion H. reflexivity.
  - destruct (f x) as [y|e] eqn:Hx; simpl.
    + destruct (mapM f l) as [ys|e] eqn:Hl; simpl; unfold mret, result_ret.
      * split.
        -- intros [= <-]. constructor; [exact Hx|]. apply IH. reflexivity.
        -- intros H. inversion H as [|? y' ? ys' Hy Hys]; subst.
           apply IH in Hys. congruence.
      * split; [discriminate|].
        intros H. inversion H as [|? y' ? ys' Hy Hys]; subst.
        apply IH in Hys. discriminate.
    + split; [discriminate|].
      intros H. inversion H; subst. congruence.
Qed.

(** [mapM] returns when every call does. *)
Lemma mapM_total (f : A -> result B) l :
  (forall x, x ∈ l -> exists y, f x = Ok y) ->
  exists out, mapM f l = Ok out.
Proof.
  induction l as [|x l IH]; intros H; simpl.
  - eauto.
  - destruct (H x) as [y ->]; [left|].
    destruct IH as [ys ->]; [intros; apply H; right; assumption|].
    simpl. eauto.
Qed.

End ResultFacts.

Section IndexFacts.
Context `{EqDecision A}.

Lemma index_lookup (l : list A) x n : index l x = Ok n -> l !! n = Some x.
Proof.
  revert n. induction l as [|y l IH]; intros n; simpl; [discriminate|].
  destruct (decide (x = y)) as [->|Hne].
  - intros [= <-]. reflexivity.
  - destruct (index l x) as [m|e]; simpl; [|discriminate].
    intros [= <-]. simpl. apply IH. reflexivity.
Qed.

(** [index] finds the first occurrence. *)
Lemma index_first (l : list A) x n m :
  index l x = Ok n -> (m < n)%nat -> l !! m <> Some x.
Proof.
  revert n m. induction l as [|y l IH]; intros n m; simpl; [discriminate|].
  destruct (decide (x = y)) as [->|Hne].
  - intros [= <-]. lia.
  - destruct (index l x) as [k|e] eqn:Hk; simpl; [|discriminate].
    intros [= <-] Hm. destruct m as [|m]; simpl.
    + congruence.
    + apply (IH k); [reflexivity|lia].
Qed.

Lemma index_elem (l : list A) x : x ∈ l -> exists n, index l x = Ok n.
Proof.
  induction l as [|y l IH]; intros H; simpl.
  - apply elem_of_nil in H. contradiction.
  - destruct (decide (x = y)) as [->|Hne]; [eauto|].
    apply elem_of_cons in H as [?|H]; [congruence|].
    destruct (IH H) as [n ->]. simpl. eauto.
Qed.

End IndexFacts.

(** ** Stage 3: compact cognate IDs *)

Section CollectFacts.
Context `{EqDecision K}.

Lemma collect_extends (acc keys : list K) :
  exists ext, Assigner.collect acc keys = acc ++ ext.
Proof.
  revert acc. induction keys as [|k keys IH]; intros acc; simpl.
  - exists []. rewrite app_nil_r. reflexivity.
  - destruct (decide (k ∈ acc)).
    + apply IH.
    + destruct (IH (acc ++ [k])) as [ext ->].
      exists (k :: ext). rewrite <- app_assoc. reflexivity.
Qed.

Lemma collect_NoDup (acc keys : list K) :
  NoDup acc -> NoDup (Assigner.collect acc keys).
Proof.
  revert acc. induction keys as [|k keys IH]; intros acc Hacc; simpl.
  - assumption.
  - destruct (decide (k ∈ acc)) as [Hin|Hnew].
    + apply IH, Hacc.
    + apply IH, NoDup_app. split; [assumption|]. split.
      * intros x Hx Hk. apply list_elem_of_singleton in Hk. congruence.
      * apply NoDup_singleton.
Qed.

Lemma collect_elem (acc keys : list K) x :
  x ∈ Assigner.collect acc keys <-> x ∈ acc \/ x ∈ keys.
Proof.
  revert acc. induction keys as [|k keys IH]; intros acc; simpl.
  - rewrite elem_of_nil. tauto.
  - rewrite elem_of_cons.
    destruct (decide (k ∈ acc)) as [Hin|Hnew]; rewrite IH.
    + split; [tauto|]. intros [?|[->|?]]; tauto.
    + rewrite elem_of_app, list_elem_of_singleton. tauto.
Qed.

(** The list built holds exactly as many keys as there are distinct ones. *)
Lemma collect_length (keys : list K) :
  length (Assigner.collect [] keys) = length (remove_dups keys).
Proof.
  apply Permutation_length, NoDup_Permutation.
  - apply collect_NoDup, NoDup_nil_2.
  - apply NoDup_remove_dups.
  - intros x. rewrite collect_elem, elem_of_remove_dups, elem_of_nil. tauto.
Qed.

(** First-seen order: whatever stands before a key in the list built was
    there from the start or occurs earlier among the keys. *)
Lemma collect_first_seen (acc keys : list K) i k n m a :
  NoDup acc ->
  keys !! i = Some k ->
  Assigner.collect acc keys !! n = Some k ->
  (m < n)%nat ->
  Assigner.collect acc keys !! m = Some a ->
  a ∈ acc \/ exists j, (j < i)%nat /\ keys !! j = Some a.
Proof.
  revert acc i. induction keys as [|k0 keys IH]; intros acc i Hacc Hi Hn Hm Ha;
    [discriminate|].
  simpl in Hn, Ha.
  assert (Hprefix : forall acc', NoDup acc' -> k ∈ acc' ->
            Assigner.collect acc' keys !! n = Some k ->
            Assigner.collect acc' keys !! m = Some a -> a ∈ acc').
  { intros acc' Hnd Hk Hn' Ha'.
    destruct (collect_extends acc' keys) as [ext E].
    pose proof (collect_NoDup acc' keys Hnd) as HND. rewrite E in *.
    apply list_elem_of_lookup in Hk as [p Hp].
    assert (n = p).
    { eapply NoDup_lookup; [exact HND|exact Hn'|].
      rewrite lookup_app_l; [exact Hp|]. eapply lookup_lt_Some, Hp. }
    subst p. apply lookup_lt_Some in Hp.
    rewrite lookup_app_l in Ha' by lia.
    eapply list_elem_of_lookup_2, Ha'. }
  destruct (decide (k0 ∈ acc)) as [Hin|Hnew].
  - destruct i as [|i]; simpl in Hi.
    + injection Hi as ->. left. apply Hprefix; assumption.
    + destruct (IH acc i Hacc Hi Hn Hm Ha) as [?|(j & Hj & Hkj)]; [tauto|].
      right. exists (S j). split; [lia|exact Hkj].
  - assert (Hacc' : NoDup (acc ++ [k0])).
    { apply NoDup_app. split; [assumption|]. split.
      - intros x Hx Hk. apply list_elem_of_singleton in Hk. congruence.
      - apply NoDup_singleton. }
    assert (Hsplit : a ∈ acc ++ [k0] -> a ∈ acc \/ a = k0).
    { intros H. apply elem_of_app in H as [?|H]; [tauto|].
      apply list_elem_of_singleton in H. tauto. }
    destruct i as [|i]; simpl in Hi.
    + injection Hi as ->.
      assert (Hk : a ∈ acc ++ [k]).
      { apply Hprefix; try assumption.
        apply elem_of_app. right. apply list_elem_of_singleton. reflexivity. }
      apply elem_of_app in Hk as [?|Hk]; [tauto|].
      apply list_elem_of_singleton in Hk as ->.
      exfalso.
      assert (n = m); [|lia].
      eapply NoDup_lookup; [|exact Hn|exact Ha].
      apply collect_NoDup, Hacc'.
    + destruct (IH (acc ++ [k0]) i Hacc' Hi Hn Hm Ha) as [H|(j & Hj & Hkj)].
      * destruct (Hsplit H) as [?|Hk0]; [tauto|]. subst a.
        right. exists 0%nat. split; [lia|reflexivity].
      * right. exists (S j). split; [lia|exact Hkj].
Qed.

End CollectFacts.

Section AssignFacts.
Context `{EqDecision K}.

Lemma number_cell_inv (ids : list K) x (y : nat) :
  (n ← index ids x; mret (n + 1)%nat) = Ok y ->
  exists n, index ids x = Ok n /\ y = (n + 1)%nat.
Proof.
  destruct (index ids x) as [n|e]; simpl; [|discriminate].
  intros [= <-]. eauto.
Qed.

(** The numbering of a list of keys: it returns, and a key at position [n]
    of the list built is numbered [n + 1]. *)
Lemma assign_positions (keys : list K) :
  exists ids,
    Assigner.assign keys = Ok ids
    /\ Forall2 (fun k id => exists n,
                  Assigner.collect [] keys !! n = Some k /\ id = (n + 1)%nat)
               keys ids.
Proof.
  unfold Assigner.assign, Assigner.number.
  destruct (mapM_total
    (fun x => n ← index (Assigner.collect [] keys) x; mret (n + 1)%nat) keys)
    as [ids Hids].
  - intros x Hx.
    destruct (index_elem (Assigner.collect [] keys) x) as [n Hn].
    { apply collect_elem. right. exact Hx. }
    exists (n + 1)%nat. rewrite Hn. reflexivity.
  - exists ids. split; [exact Hids|].
    apply mapM_Ok in Hids. eapply Forall2_impl; [exact Hids|].
    intros x y Hxy. apply number_cell_inv in Hxy as (n & Hn & ->).
    exists n. split; [apply index_lookup, Hn|reflexivity].
Qed.

Lemma assign_dense (keys : list K) :
  exists ids,
    Assigner.assign keys = Ok ids
    /\ length ids = length keys
    /\ (forall i j a b x y,
         keys !! i = Some a -> keys !! j = Some b ->
         ids !! i = Some x -> ids !! j = Some y ->
         (x = y <-> a = b))
    /\ (forall n, n ∈ ids <-> (1 <= n <= length (remove_dups keys))%nat)
    /\ (forall i x y,
         ids !! i = Some x -> (1 <= y < x)%nat ->
         exists j, (j < i)%nat /\ ids !! j = Some y).
Proof.
  destruct (assign_positions keys) as (ids & Hids & Hpos).
  pose proof (collect_NoDup [] keys (NoDup_nil_2)) as ND.
  assert (Hat : forall i k x, keys !! i = Some k -> ids !! i = Some x ->
            exists n, Assigner.collect [] keys !! n = Some k
                      /\ x = (n + 1)%nat).
  { intros i k x Hk Hx. exact (Forall2_lookup_lr _ _ _ _ _ _ Hpos Hk Hx). }
  assert (Hid : forall i k n, keys !! i = Some k ->
            Assigner.collect [] keys !! n = Some k ->
            ids !! i = Some (n + 1)%nat).
  { intros i k n Hk Hn.
    destruct (Forall2_lookup_l _ _ _ _ _ Hpos Hk) as (x & Hx & m & Hm & ->).
    rewrite Hx. do 2 f_equal. eapply NoDup_lookup; eassumption. }
  exists ids. split; [exact Hids|]. split; [|split; [|split]].
  - symmetry. eapply Forall2_length, Hpos.
  - intros i j a b x y Ha Hb Hx Hy.
    destruct (Hat _ _ _ Ha Hx) as (n & Hn & ->).
    destruct (Hat _ _ _ Hb Hy) as (m & Hm & ->).
    split.
    + intros E. assert (n = m) as -> by lia. congruence.
    + intros ->. f_equal. eapply NoDup_lookup; eassumption.
  - intros n. rewrite <- collect_length. split.
    + intros Hn. apply list_elem_of_lookup in Hn as [i Hi].
      destruct (Forall2_lookup_r _ _ _ _ _ Hpos Hi) as (k & Hk & m & Hm & ->).
      apply lookup_lt_Some in Hm. lia.
    + intros [H1 H2].
      destruct (lookup_lt_is_Some_2 (Assigner.collect [] keys) (n - 1))
        as [k Hk]; [lia|].
      assert (Hin : k ∈ keys).
      { apply list_elem_of_lookup_2 in Hk. apply collect_elem in Hk.
        destruct Hk as [Hk|Hk]; [apply elem_of_nil in Hk; contradiction|].
        exact Hk. }
      apply list_elem_of_lookup in Hin as [i Hi].
      apply list_elem_of_lookup. exists i.
      replace n with (n - 1 + 1)%nat by lia. eapply Hid; eassumption.
  - intros i x y Hx Hy.
    destruct (lookup_lt_is_Some_2 keys i) as [k Hk].
    { rewrite (Forall2_length _ _ _ Hpos). eapply lookup_lt_Some, Hx. }
    destruct (Hat _ _ _ Hk Hx) as (n & Hn & ->).
    destruct (lookup_lt_is_Some_2 (Assigner.collect [] keys) (y - 1))
      as [a Ha]; [apply lookup_lt_Some in Hn; lia|].
    destruct (collect_first_seen [] keys i k n (y - 1) a)
      as [Hnil|(j & Hj & Hkj)]; try assumption; [apply NoDup_nil_2|lia| |].
    + apply elem_of_nil in Hnil. contradiction.
    + exists j. split; [exact Hj|].
      replace y with (y - 1 + 1)%nat by lia. eapply Hid; eassumption.
Qed.

End AssignFacts.

(** C4: the COGID column is computed for every table and in both modes;
    two rows get the same COGID exactly when their keys are equal (the
    LONG_COGIDs are equal and, when meaning-scoped, so are the concept
    IDs); the COGIDs are exactly 1..K for K the number of distinct keys;
    and they are numbered in first-seen order: when a row gets a COGID,
    every smaller one has been given to an earlier row. *)
Theorem COGID_dense_first_seen within_meaning (cognates : list Assigner.Row) :
  exists ids,
    Assigner.COGID within_meaning cognates = Ok ids
    /\ length ids = length cognates
    /\ (forall i j a b x y,
         cognates !! i = Some a -> cognates !! j = Some b ->
         ids !! i = Some x -> ids !! j = Some y ->
         (x = y <-> Assigner.same_key within_meaning a b))
    /\ (forall n, n ∈ ids <->
          (1 <= n <= Assigner.distinct_keys within_meaning cognates)%nat)
    /\ (forall i x y,
         ids !! i = Some x -> (1 <= y < x)%nat ->
         exists j, (j < i)%nat /\ ids !! j = Some y).
Proof.
  unfold Assigner.COGID, Assigner.same_key, Assigner.distinct_keys.
  destruct within_meaning.
  - destruct (assign_dense (map Assigner.tuple cognates))
      as (ids & Hids & Hlen & Hiff & Hrange & Hfirst).
    exists ids. rewrite length_map in Hlen.
    split; [exact Hids|]. split; [exact Hlen|].
    split; [|split; [exact Hrange|exact Hfirst]].
    intros i j a b x y Ha Hb Hx Hy.
    rewrite (Hiff i j (Assigner.tuple a) (Assigner.tuple b) x y);
      try assumption;
      try (rewrite list_lookup_fmap; first [rewrite Ha|rewrite Hb];
           reflexivity).
    unfold Assigner.tuple. split.
    + intros [= -> ->]. split; [reflexivity|intros _; reflexivity].
    + intros [-> H]. rewrite (H eq_refl). reflexivity.
  - destruct (assign_dense (map Assigner.LONG_COGID cognates))
      as (ids & Hids & Hlen & Hiff & Hrange & Hfirst).
    exists ids. rewrite length_map in Hlen.
    split; [exact Hids|]. split; [exact Hlen|].
    split; [|split; [exact Hrange|exact Hfirst]].
    intros i j a b x y Ha Hb Hx Hy.
    rewrite (Hiff i j (Assigner.LONG_COGID a) (Assigner.LONG_COGID b) x y);
      try assumption;
      try (rewrite list_lookup_fmap; first [rewrite Ha|rewrite Hb];
           reflexivity).
    split; [intros ->; split; [reflexivity|discriminate]|intros [H _]; exact H].
Qed.

(** The first two rows of [merged_rows] share their LONG_COGID and differ
    in their concept ID: meaning-scoped they get different COGIDs, unscoped
    the same one, and the COGIDs are 1..3 and 1..2. *)
Lemma COGID_dense_first_seen_witness :
  (exists ids,
     Assigner.COGID true merged_rows = Ok ids
     /\ (forall x y, ids !! 0%nat = Some x -> ids !! 1%nat = Some y -> x <> y)
     /\ (forall n, n ∈ ids <-> (1 <= n <= 3)%nat))
  /\ (exists ids,
     Assigner.COGID false merged_rows = Ok ids
     /\ (forall x y, ids !! 0%nat = Some x -> ids !! 1%nat = Some y -> x = y)
     /\ (forall n, n ∈ ids <-> (1 <= n <= 2)%nat)).
Proof.
  split.
  - destruct (COGID_dense_first_seen true merged_rows)
      as (ids & Hids & _ & Hiff & Hrange & _).
    exists ids. split; [exact Hids|]. split; [|exact Hrange].
    intros x y Hx Hy E.
    apply (Hiff 0%nat 1%nat _ _ x y eq_refl eq_refl Hx Hy) in E as [_ E].
    specialize (E eq_refl). discriminate E.
  - destruct (COGID_dense_first_seen false merged_rows)
      as (ids & Hids & _ & Hiff & Hrange & _).
    exists ids. split; [exact Hids|]. split; [|exact Hrange].
    intros x y Hx Hy.
    apply (Hiff 0%nat 1%nat _ _ x y eq_refl eq_refl Hx Hy).
    split; [reflexivity|discriminate].
Defined.

Example scenario_E :
  let shared := Str (u "('abui', 'hand', 'tang')") in
  let rows := [ {| Assigner.LONG_COGID := shared;
                   Assigner.CONCEPT_ID := Num 12 |};
                {| Assigner.LONG_COGID := shared;
                   Assigner.CONCEPT_ID := Num 40 |} ] in
  Assigner.COGID true rows = Ok [1; 2]%nat
  /\ Assigner.COGID false rows = Ok [1; 1]%nat.
Proof. vm_compute. split; reflexivity. Qed.

(** ** Stage 0: renumbering of COGNATE_SET *)

(** The cells the renumbering blanks: missing, the empty string, the
    string "nan", and the number zero (which [not i] also accepts). *)
Lemma absent_cases (c : cell) :
  absent c = true <->
  c = None \/ c = Some (Str (u "")) \/ c = Some (Str (u "nan"))
  \/ c = Some (Num 0).
Proof.
  unfold absent. split.
  - destruct c as [[s|z]|]; simpl; [| |tauto].
    + rewrite orb_false_r. intros H. apply orb_true_iff in H as [H|H].
      * apply bool_decide_eq_true in H. injection H as ->. tauto.
      * apply negb_true_iff, negb_false_iff, bool_decide_eq_true in H.
        subst s. tauto.
    + intros H. apply negb_true_iff, negb_false_iff, bool_decide_eq_true in H.
      subst z. tauto.
  - intros [ -> | [ -> | [ -> | -> ] ] ]; reflexivity.
Qed.

Section RenumberFacts.
Variable list_of_set : nat -> list cell -> list cell.

Lemma renumber_cell_absent column k c :
  absent c = true ->
  renumber_cell list_of_set column k c = Ok (Some (Str (u ""))).
Proof. unfold renumber_cell. intros ->. reflexivity. Qed.

Lemma renumber_cell_label column k c y :
  absent c = false ->
  renumber_cell list_of_set column k c = Ok y ->
  exists n, list_of_set k column !! n = Some c
            /\ y = Some (Num (Z.of_nat n + 1)).
Proof.
  unfold renumber_cell. intros ->.
  destruct (index (list_of_set k column) c) as [n|e] eqn:Hn; simpl;
    [|discriminate].
  intros [= <-]. exists n. split; [apply index_lookup, Hn|reflexivity].
Qed.

Lemma renumber_cell_first column k c y :
  absent c = false ->
  renumber_cell list_of_set column k c = Ok y ->
  exists n, first_with (fun x => x = c) (list_of_set k column) n c
            /\ y = Some (Num (Z.of_nat n + 1)).
Proof.
  unfold renumber_cell. intros ->.
  destruct (index (list_of_set k column) c) as [n|e] eqn:Hn; simpl;
    [|discriminate].
  intros [= <-]. exists n. split; [|reflexivity].
  split; [apply index_lookup, Hn|]. split; [reflexivity|].
  intros m x Hm Hx ->. exact (index_first _ _ _ _ Hn Hm Hx).
Qed.

(** The new cell at a position is the new label computed for that
    position. *)
Lemma renumber_lookup column out i c y :
  renumber list_of_set column = Ok out ->
  column !! i = Some c -> out !! i = Some y ->
  renumber_cell list_of_set column i c = Ok y.
Proof.
  unfold renumber. intros Hout Hc Hy. apply mapM_Ok in Hout.
  assert (Hic : imap pair column !! i = Some (i, c))
    by (rewrite list_lookup_imap, Hc; reflexivity).
  exact (Forall2_lookup_lr _ _ _ _ _ _ Hout Hic Hy).
Qed.

(** C9 (as the code has it): when every evaluation of [list(set(column))]
    holds every label of the column, the renumbering returns; it maps every
    missing, empty, "nan" or zero cell to the empty string and every other
    label to a positive integer, one more than the first position of the
    label in the list as it was built for that row; and two labelled rows
    for which the set was listed in the same order get the same integer
    exactly when their labels are equal. *)
Theorem renumber_injective column :
  (forall k v, Some v ∈ column -> Some v ∈ list_of_set k column) ->
  exists out,
    renumber list_of_set column = Ok out
    /\ length out = length column
    /\ (forall i c y, column !! i = Some c -> out !! i = Some y ->
         if absent c then y = Some (Str (u ""))
         else exists n, (0 < n)%Z /\ y = Some (Num n))
    /\ (forall i c y, column !! i = Some c -> out !! i = Some y ->
         absent c = false ->
         exists n, first_with (fun x => x = c) (list_of_set i column) n c
                   /\ y = Some (Num (Z.of_nat n + 1)))
    /\ (forall i j a b x y,
         column !! i = Some a -> column !! j = Some b ->
         absent a = false -> absent b = false ->
         out !! i = Some x -> out !! j = Some y ->
         list_of_set i column = list_of_set j column ->
         (x = y <-> a = b))
    /\ (forall c, absent c = true <->
          c = None \/ c = Some (Str (u "")) \/ c = Some (Str (u "nan"))
          \/ c = Some (Num 0)).
Proof.
  intros Hset.
  destruct (mapM_total (fun ki => renumber_cell list_of_set column ki.1 ki.2)
              (imap pair column)) as [out Hout].
  { intros [k c] Hc. simpl.
    apply elem_of_lookup_imap_1 in Hc as (i & c' & [= -> ->] & Hi).
    destruct (absent c') eqn:Hab.
    - rewrite renumber_cell_absent by assumption. eauto.
    - unfold renumber_cell. rewrite Hab.
      destruct c' as [v|]; [|discriminate].
      destruct (index_elem (list_of_set i column) (Some v)) as [n ->];
        [eapply Hset, list_elem_of_lookup_2, Hi|].
      simpl. eauto. }
  fold (renumber list_of_set column) in Hout.
  exists out. split; [exact Hout|].
  assert (Hat : forall i c y, column !! i = Some c -> out !! i = Some y ->
            renumber_cell list_of_set column i c = Ok y)
    by (intros i c y; apply renumber_lookup, Hout).
  split.
  { unfold renumber in Hout. apply mapM_Ok, Forall2_length in Hout.
    rewrite length_imap in Hout. symmetry. exact Hout. }
  split; [|split; [|split; [|exact absent_cases]]].
  - intros i c y Hc Hy. specialize (Hat _ _ _ Hc Hy).
    destruct (absent c) eqn:Hab.
    + rewrite renumber_cell_absent in Hat by assumption. congruence.
    + apply renumber_cell_label in Hat as (n & _ & ->); [|assumption].
      exists (Z.of_nat n + 1)%Z. split; [lia|reflexivity].
  - intros i c y Hc Hy Hab.
    apply renumber_cell_first; [exact Hab|]. apply (Hat _ _ _ Hc Hy).
  - intros i j a b x y Ha Hb Haa Hab Hx Hy Horder.
    pose proof (Hat _ _ _ Ha Hx) as Hxa.
    pose proof (Hat _ _ _ Hb Hy) as Hyb.
    split.
    + intros ->.
      apply renumber_cell_label in Hxa as (n & Hn & E); [|assumption].
      apply renumber_cell_label in Hyb as (m & Hm & E'); [|assumption].
      assert (n = m) as -> by (rewrite E in E'; injection E' as E'; lia).
      rewrite Horder in Hn. congruence.
    + intros ->. unfold renumber_cell in Hxa, Hyb.
      rewrite Horder in Hxa. congruence.
Qed.

End RenumberFacts.

(** C9: the label 0 is none of empty, missing or "nan", and is blanked; and
    when the missing value is listed first for one row and last for the
    next, the label 5 gets the integers 1 and 2, and the labels 5 and 6 both
    get the integer 2. *)
Lemma renumber_zero_and_order :
  renumber (fun _ => Assigner.collect []) [Some (Num 0); Some (Num 7)]
  = Ok [Some (Str (u "")); Some (Num 2)]
  /\ renumber moving_nan [None; Some (Num 5); Some (Num 5); Some (Num 6)]
     = Ok [Some (Str (u "")); Some (Num 1); Some (Num 2); Some (Num 2)].
Proof. vm_compute. split; reflexivity. Qed.

Lemma renumber_injective_witness :
  let column := [None; Some (Num 5); Some (Num 5); Some (Num 6)] in
  exists out,
    renumber moving_nan column = Ok out
    /\ length out = length column
    /\ (forall i c y, column !! i = Some c -> out !! i = Some y ->
         if absent c then y = Some (Str (u ""))
         else exists n, (0 < n)%Z /\ y = Some (Num n))
    /\ (forall i c y, column !! i = Some c -> out !! i = Some y ->
         absent c = false ->
         exists n, first_with (fun x => x = c) (moving_nan i column) n c
                   /\ y = Some (Num (Z.of_nat n + 1)))
    /\ (forall i j a b x y,
         column !! i = Some a -> column !! j = Some b ->
         absent a = false -> absent b = false ->
         out !! i = Some x -> out !! j = Some y ->
         moving_nan i column = moving_nan j column ->
         (x = y <-> a = b))
    /\ (forall c, absent c = true <->
          c = None \/ c = Some (Str (u "")) \/ c = Some (Str (u "nan"))
          \/ c = Some (Num 0)).
Proof.
  intros column. apply (renumber_injective moving_nan column).
  intros k v Hv. unfold moving_nan, column. simpl.
  destruct (Nat.even k);
    repeat (apply elem_of_cons in Hv as [Hv|Hv];
            [first [discriminate Hv | rewrite Hv; by_decide]|]);
    apply elem_of_nil in Hv; contradiction.
Defined.

Example renumber_run :
  renumber (fun _ => Assigner.collect [])
    [Some (Str (u "tree-1")); None; Some (Str (u "nan"));
     Some (Str (u "tree-2")); Some (Str (u "tree-1"))]
  = Ok [Some (Num 1); Some (Str (u "")); Some (Str (u ""));
        Some (Num 4); Some (Num 1)].
Proof. vm_compute. reflexivity. Qed.

(** ** Stage 2: the cognate resolver *)

Module ResolverFacts.
Import Resolver.

Lemma erase_alter v i (l : list Row) :
  map (with_LONG_COGID None) (alter (with_LONG_COGID (Some v)) i l)
  = map (with_LONG_COGID None) l.
Proof.
  revert i. induction l as [|r l IH]; intros [|i]; simpl; try reflexivity.
  f_equal. apply IH.
Qed.

(** Writing LONG_COGID changes no column the loop reads. *)
Lemma erase_set_value i v t : erase (set_value i v t) = erase t.
Proof.
  unfold erase, set_value.
  destruct (coding t); simpl; rewrite erase_alter; reflexivity.
Qed.

Lemma cognates_erase t :
  cognates (erase t) = map (with_LONG_COGID None) (cognates t).
Proof. unfold cognates, erase. destruct (coding t); reflexivity. Qed.

Lemma cognates_set_value i v t :
  cognates (set_value i v t) = alter (with_LONG_COGID (Some v)) i (cognates t).
Proof. unfold cognates, set_value. destruct (coding t); reflexivity. Qed.

Lemma filter_erase (p : Row -> bool) l :
  (forall r, p (with_LONG_COGID None r) = p r) ->
  List.filter p (map (with_LONG_COGID None) l)
  = map (with_LONG_COGID None) (List.filter p l).
Proof.
  intros Hp. induction l as [|r l IH]; [reflexivity|].
  simpl. rewrite Hp. destruct (p r); simpl; rewrite IH; reflexivity.
Qed.

Section LoopFacts.
Variable repr : Z -> pystr.
Variable args_reset : list pystr.

Lemma representatives_erase t row :
  representatives repr args_reset (erase t) row
  = map (with_LONG_COGID None) (representatives repr args_reset t row).
Proof.
  assert (Hs : forall column cogid l,
            (forall r, column (with_LONG_COGID None r) = column r) ->
            sharing column cogid (map (with_LONG_COGID None) l)
            = map (with_LONG_COGID None) (sharing column cogid l)).
  { intros column cogid l Hc. apply filter_erase.
    intros r. rewrite Hc. reflexivity. }
  unfold representatives, autocognates_rows.
  rewrite cognates_erase. simpl autocognates.
  rewrite filter_erase by reflexivity.
  destruct (reset repr args_reset row).
  - destruct (List.filter _ (autocognates t)) as [|a rows]; simpl.
    + apply Hs. reflexivity.
    + apply Hs. reflexivity.
  - apply Hs. reflexivity.
Qed.

Lemma outcome_erase t row :
  outcome repr args_reset (erase t) row = outcome repr args_reset t row.
Proof.
  unfold outcome, representative, notices.
  rewrite representatives_erase.
  destruct (representatives repr args_reset t row) as [|r rs]; simpl.
  - reflexivity.
  - rewrite !map_map. reflexivity.
Qed.

Lemma outcome_same t t' row :
  erase t = erase t' ->
  outcome repr args_reset t row = outcome repr args_reset t' row.
Proof.
  intros E. rewrite <- (outcome_erase t), <- (outcome_erase t'), E.
  reflexivity.
Qed.

(** Rows before the current position are not written again. *)
Lemma resolve_rows_before st i rows j :
  (j < i)%nat ->
  cognates (tables (resolve_rows repr args_reset st i rows)) !! j
  = cognates (tables st) !! j.
Proof.
  revert st i. induction rows as [|row rows IH]; intros st i Hj;
    [reflexivity|].
  simpl. rewrite IH by lia. simpl. rewrite cognates_set_value.
  apply list_lookup_alter_ne. lia.
Qed.

(** The row at position [i + k] ends with the triple of its outcome. *)
Lemma resolve_rows_at st i rows k row :
  rows !! k = Some row ->
  (i + k < length (cognates (tables st)))%nat ->
  LONG_COGID <$> cognates (tables (resolve_rows repr args_reset st i rows))
                   !! (i + k)%nat
  = Some (Some (outcome repr args_reset (tables st) row).1.1).
Proof.
  revert st i k. induction rows as [|r rows IH]; intros st i k Hk Hlen;
    [discriminate|].
  destruct k as [|k]; simpl in Hk.
  - injection Hk as ->. simpl. rewrite resolve_rows_before by lia.
    simpl. rewrite cognates_set_value, Nat.add_0_r, list_lookup_alter_eq.
    destruct (lookup_lt_is_Some_2 (cognates (tables st)) i) as [x ->];
      [lia|].
    reflexivity.
  - simpl. replace (i + S k)%nat with (S i + k)%nat by lia.
    rewrite (IH _ (S i) k Hk).
    + rewrite (outcome_same _ (tables st)); [reflexivity|].
      apply erase_set_value.
    + simpl. rewrite cognates_set_value, length_alter. lia.
Qed.

Lemma resolve_rows_printed st i rows x :
  x ∈ printed st
  \/ (exists k row, rows !! k = Some row
                     /\ x ∈ (outcome repr args_reset (tables st) row).2) ->
  x ∈ printed (resolve_rows repr args_reset st i rows).
Proof.
  revert st i. induction rows as [|r rows IH]; intros st i H.
  - destruct H as [H|(k & row & Hk & _)]; [exact H|discriminate].
  - simpl. apply IH. destruct H as [H|(k & row & Hk & Hx)].
    + left. simpl. apply elem_of_app. left. exact H.
    + destruct k as [|k]; simpl in Hk.
      * injection Hk as ->. left. simpl. apply elem_of_app. right. exact Hx.
      * right. exists k, row. split; [exact Hk|].
        rewrite (outcome_same _ (tables st)); [exact Hx|].
        apply erase_set_value.
Qed.

Lemma pairs_resolve_row st i row :
  pairs (resolve_row repr args_reset st i row) =
  if py_ne (CONCEPT row) (outcome repr args_reset (tables st) row).1.2
  then {[ (CONCEPT row, (outcome repr args_reset (tables st) row).1.2) ]}
         ∪ pairs st
  else pairs st.
Proof. reflexivity. Qed.

(** The set built by [pairs.add]: one ordered pair for every row whose
    concept is not that of its representative. *)
Lemma resolve_rows_pairs st i rows p :
  p ∈ pairs (resolve_rows repr args_reset st i rows) <->
  p ∈ pairs st
  \/ exists k row,
       rows !! k = Some row
       /\ py_ne (CONCEPT row)
                (outcome repr args_reset (tables st) row).1.2 = true
       /\ p = (CONCEPT row, (outcome repr args_reset (tables st) row).1.2).
Proof.
  revert st i. induction rows as [|r rows IH]; intros st i.
  - simpl. split; [tauto|]. intros [H|(k & row & Hk & _)]; [exact H|].
    discriminate.
  - simpl resolve_rows. rewrite IH. clear IH.
    assert (Hsame : forall row,
              outcome repr args_reset
                (tables (resolve_row repr args_reset st i r)) row
              = outcome repr args_reset (tables st) row).
    { intros row. apply outcome_same. apply erase_set_value. }
    rewrite pairs_resolve_row.
    split.
    + intros [H|(k & row & Hk & Hne & ->)].
      * destruct (py_ne (CONCEPT r) _) eqn:Hr; [|tauto].
        apply elem_of_union in H as [H|H]; [|tauto].
        apply elem_of_singleton in H as ->.
        right. exists 0%nat, r. auto.
      * right. exists (S k), row. rewrite Hsame in Hne. rewrite Hsame. auto.
    + intros [H|(k & row & Hk & Hne & ->)].
      * left. destruct (py_ne (CONCEPT r) _); [|exact H].
        apply elem_of_union. right. exact H.
      * destruct k as [|k]; simpl in Hk.
        -- injection Hk as ->. left. rewrite Hne.
           apply elem_of_union. left. apply elem_of_singleton. reflexivity.
        -- right. exists k, row. rewrite Hsame. auto.
Qed.

(** C7 (as the code has it): the observation set holds exactly the ordered
    pairs (row's concept, representative's concept) of the rows whose
    concept differs from their representative's.  The pair with the two
    concepts swapped is a different element, present only when some row
    produces it. *)
Theorem pairs_are_ordered t p :
  p ∈ pairs (resolve repr args_reset t) <->
  exists i row,
    cognates (clear t) !! i = Some row
    /\ py_ne (CONCEPT row)
             (CONCEPT (representative repr args_reset (clear t) row)) = true
    /\ p = (CONCEPT row,
            CONCEPT (representative repr args_reset (clear t) row)).
Proof.
  unfold resolve. simpl pairs. rewrite resolve_rows_pairs. simpl.
  rewrite elem_of_empty. split.
  - intros [[]|H]. exact H.
  - intros H. right. exact H.
Qed.

End LoopFacts.

End ResolverFacts.

Example scenario_C_resolved :
  map Resolver.LONG_COGID
    (Resolver.cognates (Resolver.tables (Resolver.resolve repr_int [] scenario_C)))
  = [Some (Some (Str (u "abui1241")), Some (Str (u "hand")),
           Some (Str (u "tang")))].
Proof. vm_compute. reflexivity. Qed.

(** C7: the row with concept "arm" is represented by a row with concept
    "hand"; the set holds (arm, hand) and not (hand, arm). *)
Lemma pairs_swapped_absent :
  (Some (Str (u "arm")), Some (Str (u "hand")))
    ∈ Resolver.pairs (Resolver.resolve repr_int [] cross_meaning)
  /\ (Some (Str (u "hand")), Some (Str (u "arm")))
    ∉ Resolver.pairs (Resolver.resolve repr_int [] cross_meaning).
Proof. split; by_decide. Qed.

(** ** Stage 5: alignment validation *)

Module ValidatorFacts.
Import Validator.

Section ValidateFacts.
Variable has_AUTO_ALIGNMENT : bool.

Lemma reset_row_idem r :
  reset_row has_AUTO_ALIGNMENT (reset_row has_AUTO_ALIGNMENT r)
  = reset_row has_AUTO_ALIGNMENT r.
Proof. reflexivity. Qed.

Lemma reset_alignment_lookup live j i :
  reset_alignment has_AUTO_ALIGNMENT live j !! i
  = if decide (i = j) then reset_row has_AUTO_ALIGNMENT <$> live !! i
    else live !! i.
Proof.
  unfold reset_alignment.
  destruct (live !! j) as [r|] eqn:Hj.
  - destruct (decide (i = j)) as [->|Hne].
    + rewrite list_lookup_insert_eq by (eapply lookup_lt_Some, Hj).
      rewrite Hj. reflexivity.
    + apply list_lookup_insert_ne. congruence.
  - destruct (decide (i = j)) as [->|Hne]; [|reflexivity].
    rewrite Hj. reflexivity.
Qed.

(** The writes of one group, seen from position [i]. *)
Lemma reset_all_lookup js live i :
  foldl (reset_alignment has_AUTO_ALIGNMENT) live js !! i
  = if decide (i ∈ js) then reset_row has_AUTO_ALIGNMENT <$> live !! i
    else live !! i.
Proof.
  revert live. induction js as [|j js IH]; intros live; simpl.
  - destruct (decide (i ∈ [])) as [H|_]; [|reflexivity].
    apply elem_of_nil in H. contradiction.
  - rewrite IH, reset_alignment_lookup.
    destruct (decide (i ∈ js)) as [Hin|Hnin], (decide (i = j)) as [Heq|Hne],
      (decide (i ∈ j :: js)) as [Hc|Hc];
      try (destruct (live !! i); reflexivity);
      exfalso;
      first [ apply Hc; rewrite Heq; left
            | apply Hc; right; exact Hin
            | apply elem_of_cons in Hc as [?|?]; contradiction ].
Qed.

(** The index labels of a group are the positions of its rows. *)
Lemma cognate_class_labels cogid alignments i :
  i ∈ map fst (cognate_class cogid alignments) <->
  exists r, alignments !! i = Some r /\ COGID r = Some cogid.
Proof.
  unfold cognate_class. split.
  - intros H. apply list_elem_of_fmap in H as ([j r] & -> & H).
    apply list_elem_of_In, filter_In in H as [H Hc].
    apply list_elem_of_In, elem_of_lookup_imap_1 in H as (k & y & [= -> ->] & Hk).
    apply bool_decide_eq_true in Hc. eauto.
  - intros (r & Hr & Hc).
    apply (list_elem_of_fmap_2' fst _ (i, r)); [|reflexivity].
    apply list_elem_of_In, filter_In. split.
    + apply list_elem_of_In. apply (elem_of_lookup_imap_2 pair _ _ _ Hr).
    + apply bool_decide_eq_true. exact Hc.
Qed.

(** A group changes position [i] when its counts disagree and [i] is one
    of its labels. *)
Lemma validate_class_lookup live cogid alignments i :
  validate_class has_AUTO_ALIGNMENT live (cognate_class cogid alignments) !! i
  = if decide (size (is_aligned (cognate_class cogid alignments)) <> 1%nat
               /\ i ∈ map fst (cognate_class cogid alignments))
    then reset_row has_AUTO_ALIGNMENT <$> live !! i
    else live !! i.
Proof.
  unfold validate_class.
  destruct (decide (size (is_aligned (cognate_class cogid alignments)) <> 1%nat))
    as [Hsize|Hsize].
  - rewrite reset_all_lookup.
    destruct (decide (i ∈ map fst (cognate_class cogid alignments)))
      as [Hin|Hnin].
    + rewrite decide_True by (split; assumption). reflexivity.
    + rewrite decide_False by (intros [_ ?]; contradiction). reflexivity.
  - rewrite decide_False by (intros [? _]; contradiction). reflexivity.
Qed.

Section Fold.
Variable alignments : list Row.
Variable i : nat.

Lemma groups_unhit cogids live :
  (forall w, w ∈ cogids -> ~ hits alignments i w) ->
  validate_from has_AUTO_ALIGNMENT alignments live cogids !! i = live !! i.
Proof.
  revert live. induction cogids as [|w ws IH]; intros live Hun; [reflexivity|].
  simpl. rewrite IH by (intros; apply Hun; right; assumption).
  rewrite validate_class_lookup. apply decide_False, Hun. left.
Qed.

(** A row already reset is written back unchanged. *)
Lemma groups_fixed cogids live x :
  live !! i = Some x -> reset_row has_AUTO_ALIGNMENT x = x ->
  validate_from has_AUTO_ALIGNMENT alignments live cogids !! i = Some x.
Proof.
  revert live. induction cogids as [|w ws IH]; intros live Hx Hfix;
    [exact Hx|].
  simpl. apply IH; [|exact Hfix].
  rewrite validate_class_lookup, Hx. simpl. rewrite Hfix.
  destruct (decide _); reflexivity.
Qed.

Lemma groups_hit cogids live x :
  live !! i = Some x ->
  (exists w, w ∈ cogids /\ hits alignments i w) ->
  validate_from has_AUTO_ALIGNMENT alignments live cogids !! i
  = Some (reset_row has_AUTO_ALIGNMENT x).
Proof.
  revert live. induction cogids as [|w ws IH]; intros live Hx (v & Hv & Hhit).
  - apply elem_of_nil in Hv. contradiction.
  - simpl. destruct (decide (hits alignments i w)) as [Hw|Hw].
    + apply groups_fixed; [|apply reset_row_idem].
      rewrite validate_class_lookup, Hx.
      unfold hits in Hw. rewrite decide_True by exact Hw. reflexivity.
    + apply IH.
      * rewrite validate_class_lookup, Hx.
        unfold hits in Hw. rewrite decide_False by exact Hw. reflexivity.
      * exists v. split; [|exact Hhit].
        apply elem_of_cons in Hv as [->|Hv]; [contradiction|exact Hv].
Qed.

End Fold.

(** A row of a group that is iterated, by the size of the set the loop
    computes for the group. *)
Lemma validate_group_row cogids alignments i r cogid :
  alignments !! i = Some r ->
  COGID r = Some cogid ->
  cogid ∈ cogids ->
  let counts := is_aligned (cognate_class cogid alignments) in
  (1 <= size counts)%nat
  /\ ((1 < size counts)%nat ->
      validate has_AUTO_ALIGNMENT cogids alignments !! i
      = Some (with_ALIGNMENT
                (if has_AUTO_ALIGNMENT then AUTO_ALIGNMENT r else Some (u "-"))
                r))
  /\ (size counts = 1%nat ->
      validate has_AUTO_ALIGNMENT cogids alignments !! i = Some r).
Proof.
  intros Hr Hc Hin counts.
  assert (Hlabel : i ∈ map fst (cognate_class cogid alignments)).
  { apply cognate_class_labels. eauto. }
  assert (Hpos : (1 <= size counts)%nat).
  { assert (size counts <> 0%nat); [|lia].
    apply size_non_empty_iff. unfold counts, is_aligned.
    apply list_elem_of_fmap in Hlabel as (ir & _ & Hir).
    set (count := fun ir : nat * Row =>
                    match ALIGNMENT ir.2 with
                    | None => None
                    | Some x => Some (length (split x))
                    end).
    intros Hempty.
    apply (not_elem_of_empty (C := gset (option nat)) (count ir)).
    rewrite <- Hempty. apply elem_of_list_to_set.
    apply list_elem_of_In, in_map, list_elem_of_In, Hir. }
  split; [exact Hpos|]. split.
  - intros Hmany.
    apply (groups_hit alignments i cogids alignments r Hr).
    exists cogid. split; [exact Hin|]. split; [fold counts; lia|exact Hlabel].
  - intros Hone.
    unfold validate. rewrite groups_unhit; [exact Hr|].
    intros w Hw [Hsize Hi].
    apply cognate_class_labels in Hi as (r' & Hr' & Hc').
    assert (w = cogid) as -> by congruence.
    fold counts in Hsize. contradiction.
Qed.

End ValidateFacts.

End ValidatorFacts.

Example scenario_D_validated :
  map Validator.ALIGNMENT (Validator.validate true [Num 1; Num 2] scenario_D)
  = [Some (u "t a ŋ -"); Some (u "m a t"); Some (u "t a n a");
     Some (u "m o t")]
  /\ map Validator.ALIGNMENT
       (Validator.validate false [Num 2; Num 1] scenario_D)
  = [Some (u "-"); Some (u "m a t"); Some (u "-"); Some (u "m o t")].
Proof. vm_compute. split; reflexivity. Qed.

(** * Further properties of the code *)

(** ** The substitution table *)

Lemma dict_get_Some d k v : dict_get d k = Some v -> (k, v) ∈ d.
Proof.
  induction d as [|[k' v'] d IH]; simpl; [discriminate|].
  destruct (decide (k = k')) as [->|_].
  - intros [= ->]. left.
  - intros H. right. apply IH, H.
Qed.

Lemma substitutions_values :
  Forall (fun kv => length kv.2 = 1%nat
                    /\ dict_get substitutions kv.2 = None
                    /\ kv.2 <> u "*" /\ kv.2 <> newline)
         substitutions.
Proof. repeat constructor; discriminate. Qed.

Lemma substitute_char c : substitute [c] = [subst_char c].
Proof.
  unfold subst_char, substitute.
  destruct (dict_get substitutions [c]) as [v|] eqn:E; [|reflexivity].
  apply dict_get_Some in E.
  pose proof (proj1 (Forall_forall _ _) substitutions_values _ E) as (Hlen & _).
  simpl in Hlen. destruct v as [|c' [|? ?]]; try discriminate. reflexivity.
Qed.

(** A substituted character is not substituted again. *)
Lemma substitute_idem c : substitute [subst_char c] = substitute [c].
Proof.
  rewrite <- substitute_char.
  destruct (dict_get substitutions [c]) as [v|] eqn:E.
  - assert (Hs : substitute [c] = v) by (unfold substitute; rewrite E; reflexivity).
    rewrite Hs. apply dict_get_Some in E.
    pose proof (proj1 (Forall_forall _ _) substitutions_values _ E)
      as (_ & Hnone & _).
    change (dict_get substitutions v = None) in Hnone.
    unfold substitute. rewrite Hnone. reflexivity.
  - assert (Hs : substitute [c] = [c])
      by (unfold substitute; rewrite E; reflexivity).
    rewrite Hs. exact Hs.
Qed.

Lemma subst_char_star c : [subst_char c] = u "*" <-> [c] = u "*".
Proof.
  rewrite <- substitute_char. unfold substitute.
  destruct (dict_get substitutions [c]) as [v|] eqn:E; [|tauto].
  split.
  - intros ->. apply dict_get_Some in E.
    pose proof (proj1 (Forall_forall _ _) substitutions_values _ E)
      as (_ & _ & Hstar & _).
    contradiction.
  - intros Hc. rewrite Hc in E. discriminate.
Qed.

Lemma subst_char_newline c : subst_char c = 10 -> c = 10.
Proof.
  intros H. assert (Hs : substitute [c] = newline)
    by (rewrite substitute_char, H; reflexivity).
  unfold substitute in Hs.
  destruct (dict_get substitutions [c]) as [v|] eqn:E.
  - subst v. apply dict_get_Some in E.
    pose proof (proj1 (Forall_forall _ _) substitutions_values _ E)
      as (_ & _ & _ & Hnl).
    contradiction.
  - injection Hs as ->. reflexivity.
Qed.

(** ** The segmenter: shape of the tokens *)

Section SegmenterShape.
Variables consonants vowels : list pystr.

(** What a branch says about the scanned character. *)
Lemma classify_char c :
  match classify consonants vowels [c] with
  | StressMark => c = 39
  | Boundary => c = 95 \/ c = 45
  | SyllableBreak => c = 46
  | Consonant | Vowel | Other => marker c = false
  end.
Proof.
  unfold classify.
  destruct (decide ([c] ∈ [u "'"])) as [H1|H1].
  { apply list_elem_of_singleton in H1. injection H1 as ->. reflexivity. }
  destruct (decide ([c] ∈ [u "_"; u "-"])) as [H2|H2].
  { apply elem_of_cons in H2 as [H2|H2].
    - injection H2 as ->. left. reflexivity.
    - apply list_elem_of_singleton in H2. injection H2 as ->. right.
      reflexivity. }
  destruct (decide ([c] ∈ [u "."])) as [H3|H3].
  { apply list_elem_of_singleton in H3. injection H3 as ->. reflexivity. }
  assert (Hm : marker c = false).
  { unfold marker. rewrite !orb_false_iff. repeat split; apply N.eqb_neq;
      intros ->.
    - apply H1. left.
    - apply H2. left.
    - apply H2. right. left.
    - apply H3. left. }
  destruct (decide ([c] ∈ consonants)); [exact Hm|].
  destruct (decide ([c] ∈ vowels)); exact Hm.
Qed.

(** One iteration in terms of the scanned character. *)
Lemma step_char st c :
  step consonants vowels st c =
  let c' := subst_char c in
  match classify consonants vowels [c'] with
  | StressMark =>
      (yield_if (segment st), {| segment := []; stress := true |})
  | Boundary =>
      (yield_if (segment st) ++ [[c']],
       {| segment := []; stress := stress st |})
  | SyllableBreak =>
      (yield_if (segment st), {| segment := []; stress := stress st |})
  | Consonant =>
      (yield_if (segment st), {| segment := [c']; stress := false |})
  | Vowel =>
      (yield_if (segment st),
       {| segment := if stress st then [39; c'] else [c'];
          stress := stress st |})
  | Other =>
      ([], {| segment := segment st ++ [c']; stress := stress st |})
  end.
Proof. unfold step. rewrite substitute_char. reflexivity. Qed.

Lemma yield_if_shape seg :
  seg = [] \/ segment_shape seg -> Forall token_shape (yield_if seg).
Proof.
  intros [->|H]; [constructor|].
  destruct seg as [|c seg]; [constructor|].
  constructor; [|constructor]. right. right. exact H.
Qed.

Lemma step_shape st c :
  segment st = [] \/ segment_shape (segment st) ->
  Forall token_shape (step consonants vowels st c).1
  /\ (segment (step consonants vowels st c).2 = []
      \/ segment_shape (segment (step consonants vowels st c).2)).
Proof.
  intros Hseg. rewrite step_char. cbv zeta.
  pose proof (classify_char (subst_char c)) as Hc.
  pose proof (yield_if_shape _ Hseg) as Hy.
  destruct (classify consonants vowels [subst_char c]); simpl.
  - auto.
  - split; [|auto]. apply Forall_app. split; [exact Hy|].
    constructor; [|constructor].
    destruct Hc as [->| ->]; [left|right; left]; reflexivity.
  - auto.
  - split; [exact Hy|]. right. exists [subst_char c].
    repeat split; [discriminate|repeat constructor; exact Hc|left; reflexivity].
  - split; [exact Hy|]. right. exists [subst_char c].
    repeat split; [discriminate|repeat constructor; exact Hc|].
    destruct (stress st); [right|left]; reflexivity.
  - split; [constructor|]. right.
    destruct Hseg as [->|(body & Hne & Hbody & Hform)].
    + exists [subst_char c].
      repeat split; [discriminate|repeat constructor; exact Hc|left; reflexivity].
    + exists (body ++ [subst_char c]). repeat split.
      * destruct body; discriminate.
      * apply Forall_app. split; [exact Hbody|repeat constructor; exact Hc].
      * destruct Hform as [->| ->]; [left|right]; reflexivity.
Qed.

Lemma run_shape st form :
  segment st = [] \/ segment_shape (segment st) ->
  Forall token_shape (run consonants vowels st form).1
  /\ (segment (run consonants vowels st form).2 = []
      \/ segment_shape (segment (run consonants vowels st form).2)).
Proof.
  revert st. induction form as [|c form IH]; intros st Hseg.
  - simpl. split; [constructor|exact Hseg].
  - rewrite run_cons. simpl.
    destruct (step_shape st c Hseg) as [Hout Hseg'].
    destruct (IH _ Hseg') as [Houts Hlast].
    split; [apply Forall_app; split; assumption|exact Hlast].
Qed.

Lemma segment_shape_chars token :
  segment_shape token ->
  token <> [] /\ (46 ∉ token) /\ (95 ∉ token) /\ (45 ∉ token)
  /\ (39 ∈ token -> exists body, token = 39 :: body /\ 39 ∉ body).
Proof.
  intros (body & Hne & Hbody & Hform).
  assert (Hno : forall x, marker x = true -> x ∉ body).
  { intros x Hx Hin. apply (proj1 (Forall_forall _ _) Hbody) in Hin.
    congruence. }
  destruct Hform as [->| ->].
  - repeat split; try (apply Hno; reflexivity); [exact Hne|].
    intros H. exfalso. revert H. apply Hno. reflexivity.
  - repeat split; try (intros H; apply elem_of_cons in H as [H|H];
      [discriminate|revert H; apply Hno; reflexivity]); [discriminate|].
    intros _. exists body. split; [reflexivity|apply Hno; reflexivity].
Qed.

(** Every token but the last is non-empty; no token contains the syllable
    break; a boundary marker occurs only as a token of its own; and a
    stress mark occurs only as the first character of a token. *)
Theorem tokenize_token_shape form tokens :
  tokenize consonants vowels form = Ok tokens ->
  exists init last,
    tokens = init ++ [last]
    /\ (forall t, t ∈ init -> t <> [])
    /\ (forall t, t ∈ tokens ->
         (46 ∉ t) /\ (95 ∈ t -> t = u "_") /\ (45 ∈ t -> t = u "-")
         /\ (39 ∈ t -> exists body, t = 39 :: body /\ 39 ∉ body)).
Proof.
  destruct form as [|c form]; [discriminate|].
  rewrite tokenize_cons, scan_run. intros [= <-].
  set (form' := if decide ([c] = u "*") then form else c :: form).
  destruct (run_shape start form' (or_introl eq_refl)) as [Hinit Hlast].
  exists (run consonants vowels start form').1,
         (segment (run consonants vowels start form').2).
  assert (Hshape : forall t, token_shape t ->
            t <> [] /\ (46 ∉ t) /\ (95 ∈ t -> t = u "_")
            /\ (45 ∈ t -> t = u "-")
            /\ (39 ∈ t -> exists body, t = 39 :: body /\ 39 ∉ body)).
  { intros t [->|[->|H]].
    - repeat split; try discriminate.
      + intros H. apply list_elem_of_singleton in H. discriminate.
      + intros H. apply list_elem_of_singleton in H. discriminate.
      + intros H. apply list_elem_of_singleton in H. discriminate.
    - repeat split; try discriminate.
      + intros H. apply list_elem_of_singleton in H. discriminate.
      + intros H. apply list_elem_of_singleton in H. discriminate.
      + intros H. apply list_elem_of_singleton in H. discriminate.
    - destruct (segment_shape_chars t H) as (H0 & H1 & H2 & H3 & H4).
      repeat split; try assumption; intros; contradiction. }
  split; [reflexivity|]. split.
  - intros t Ht. apply (proj1 (Forall_forall _ _) Hinit), Hshape in Ht.
    tauto.
  - intros t Ht. apply elem_of_app in Ht as [Ht|Ht].
    + apply (proj1 (Forall_forall _ _) Hinit), Hshape in Ht. tauto.
    + apply list_elem_of_singleton in Ht. subst t.
      destruct Hlast as [->|Hl].
      * repeat split; intros H; apply elem_of_nil in H; contradiction.
      * apply (Hshape _ (or_intror (or_intror Hl))).
Qed.

End SegmenterShape.

Lemma tokenize_token_shape_witness :
  exists init last,
    [u "'a"; u "-"; u "p"; u "a"; u ""] = init ++ [last]
    /\ (forall t, t ∈ init -> t <> [])
    /\ (forall t, t ∈ [u "'a"; u "-"; u "p"; u "a"; u ""] ->
         (46 ∉ t) /\ (95 ∈ t -> t = u "_") /\ (45 ∈ t -> t = u "-")
         /\ (39 ∈ t -> exists body, t = 39 :: body /\ 39 ∉ body)).
Proof.
  apply (tokenize_token_shape clpa_consonants clpa_vowels (u "ˈa-pa.")).
  vm_compute. reflexivity.
Defined.

(** ** The segmenter: what the tokens hold *)

Section SegmenterContent.
Variables consonants vowels : list pystr.

Lemma unstressed_app a b : unstressed (a ++ b) = unstressed a ++ unstressed b.
Proof. apply List.filter_app. Qed.

Lemma concat_yield_if seg : concat (yield_if seg) = seg.
Proof. destruct seg; simpl; [reflexivity|rewrite app_nil_r; reflexivity]. Qed.

Lemma marker_kept c : marker c = false -> kept c = true /\ (c =? 39) = false.
Proof.
  unfold marker, kept. rewrite !orb_false_iff. intros (((-> & _) & _) & ->).
  split; reflexivity.
Qed.

(** One iteration adds the scanned character to the yielded text, unless
    it is a stress mark or a syllable break. *)
Lemma step_content st c :
  unstressed (concat (step consonants vowels st c).1
              ++ segment (step consonants vowels st c).2)
  = unstressed (segment st)
    ++ (if kept (subst_char c) then [subst_char c] else []).
Proof.
  rewrite step_char. cbv zeta.
  pose proof (classify_char consonants vowels (subst_char c)) as Hc.
  destruct (classify consonants vowels [subst_char c]); simpl fst; simpl snd;
    simpl segment.
  - rewrite Hc, concat_yield_if, !app_nil_r. reflexivity.
  - rewrite concat_app, concat_yield_if, app_nil_r, unstressed_app.
    destruct Hc as [-> | ->]; reflexivity.
  - rewrite Hc, concat_yield_if, !app_nil_r. reflexivity.
  - rewrite concat_yield_if, unstressed_app.
    destruct (marker_kept _ Hc) as [-> Hs]. unfold unstressed at 2. simpl.
    rewrite Hs. reflexivity.
  - rewrite concat_yield_if, unstressed_app.
    destruct (marker_kept _ Hc) as [-> Hs].
    destruct (stress st); unfold unstressed at 2; simpl; rewrite Hs;
      reflexivity.
  - simpl concat. rewrite app_nil_l, unstressed_app.
    destruct (marker_kept _ Hc) as [-> Hs]. unfold unstressed at 2. simpl.
    rewrite Hs. reflexivity.
Qed.

Lemma run_content st form :
  unstressed (concat (run consonants vowels st form).1
              ++ segment (run consonants vowels st form).2)
  = unstressed (segment st) ++ List.filter kept (map subst_char form).
Proof.
  revert st. induction form as [|c form IH]; intros st.
  - simpl. rewrite app_nil_r. reflexivity.
  - rewrite run_cons. simpl fst; simpl snd.
    rewrite concat_app, <- app_assoc, unstressed_app, IH.
    rewrite app_assoc, <- unstressed_app, step_content, <- app_assoc.
    simpl. destruct (kept (subst_char c)); reflexivity.
Qed.

(** Nothing but the leading asterisk, stress marks and syllable breaks is
    lost: the tokens put together, without their stress marks, are the
    form -- without its first character when that is an asterisk -- after
    substitution, without its stress marks and syllable breaks. *)
Theorem tokenize_content form tokens :
  tokenize consonants vowels form = Ok tokens ->
  let scanned := if decide (head form = Some 42) then tail form else form in
  unstressed (concat tokens) = List.filter kept (map subst_char scanned).
Proof.
  destruct form as [|c form]; [discriminate|].
  rewrite tokenize_cons, scan_run. intros [= <-]. cbv zeta.
  change (head (c :: form)) with (Some c). change (tail (c :: form)) with form.
  assert (Hsame : (if decide (Some c = Some 42) then form else c :: form)
                  = (if decide ([c] = u "*") then form else c :: form)).
  { destruct (decide ([c] = u "*")) as [E|E].
    - apply decide_True. injection E as ->. reflexivity.
    - apply decide_False. intros [= ->]. apply E. reflexivity. }
  rewrite Hsame, concat_app. simpl concat. rewrite app_nil_r.
  apply run_content.
Qed.

(** One iteration starts at most one token per character. *)
Lemma step_count st c :
  (length (step consonants vowels st c).1
   + length (yield_if (segment (step consonants vowels st c).2))
   <= length (yield_if (segment st)) + 1)%nat.
Proof.
  rewrite step_char. cbv zeta.
  destruct (classify consonants vowels [subst_char c]); simpl;
    try rewrite length_app; simpl; try lia.
  - destruct (stress st); simpl; lia.
  - destruct (segment st); simpl; lia.
Qed.

Lemma run_count st form :
  (length (run consonants vowels st form).1
   + length (yield_if (segment (run consonants vowels st form).2))
   <= length (yield_if (segment st)) + length form)%nat.
Proof.
  revert st. induction form as [|c form IH]; intros st.
  - simpl. lia.
  - rewrite run_cons. simpl fst; simpl snd. rewrite length_app.
    pose proof (step_count st c). pose proof (IH (step consonants vowels st c).2).
    simpl length. lia.
Qed.

(** There are at most as many tokens as characters, plus one. *)
Theorem tokenize_count form tokens :
  tokenize consonants vowels form = Ok tokens ->
  (length tokens <= length form + 1)%nat.
Proof.
  destruct form as [|c form]; [discriminate|].
  rewrite tokenize_cons, scan_run. intros [= <-].
  rewrite length_app. simpl length.
  pose proof (run_count start
    (if decide ([c] = u "*") then form else c :: form)) as H.
  simpl in H. destruct (decide ([c] = u "*")); simpl in *; lia.
Qed.

Lemma step_subst st c :
  step consonants vowels st (subst_char c) = step consonants vowels st c.
Proof. unfold step. rewrite substitute_idem. reflexivity. Qed.

Lemma run_subst st form :
  run consonants vowels st (map subst_char form) = run consonants vowels st form.
Proof.
  revert st. induction form as [|c form IH]; intros st; [reflexivity|].
  simpl map. rewrite !run_cons, step_subst, IH. reflexivity.
Qed.

(** The tokenization does not change when characters of the form are
    replaced by their substitutes beforehand. *)
Theorem tokenize_substituted form :
  tokenize consonants vowels (map subst_char form)
  = tokenize consonants vowels form.
Proof.
  destruct form as [|c form]; [reflexivity|].
  simpl map. rewrite !tokenize_cons, !scan_run.
  destruct (decide ([c] = u "*")) as [Hc|Hc].
  - rewrite decide_True by (apply subst_char_star, Hc).
    rewrite run_subst. reflexivity.
  - rewrite decide_False by (rewrite subst_char_star; exact Hc).
    change (subst_char c :: map subst_char form)
      with (map subst_char (c :: form)).
    rewrite run_subst. reflexivity.
Qed.

End SegmenterContent.

Lemma tokenize_content_witness :
  unstressed (concat [u "t"; u "a"; u "m"; u "aː"])
  = List.filter kept (map subst_char (u "ˈta.ma:"))
  /\ unstressed (concat [u "p"; u "a*"])
     = List.filter kept (map subst_char (u "pa*")).
Proof.
  split.
  - apply (tokenize_content clpa_consonants clpa_vowels (u "*ˈta.ma:")).
    vm_compute. reflexivity.
  - apply (tokenize_content clpa_consonants clpa_vowels (u "pa*")).
    vm_compute. reflexivity.
Defined.

Lemma tokenize_count_witness :
  (length [u "p"; u "a"; u "_"; u "t"; u "i"] <= length (u "pa_ti") + 1)%nat.
Proof.
  apply (tokenize_count clpa_consonants clpa_vowels (u "pa_ti")).
  vm_compute. reflexivity.
Defined.

(** ** The segmenter: word boundaries *)

Section SegmenterBoundary.
Variables consonants vowels : list pystr.

(** Only the stress-mark branch sets the pending stress. *)
Lemma run_no_stress st a :
  Forall (fun c => branch_of consonants vowels c <> StressMark) a ->
  stress st = false ->
  stress (run consonants vowels st a).2 = false.
Proof.
  intros Ha. revert st. induction Ha as [|c a Hc _ IH]; intros st Hs.
  - exact Hs.
  - rewrite run_cons_snd. apply IH.
    unfold branch_of in Hc. unfold step.
    destruct (classify consonants vowels (substitute [c])); simpl;
      congruence.
Qed.

Lemma scan_word_boundary a b :
  Forall (fun c => branch_of consonants vowels c <> StressMark) a ->
  scan consonants vowels start (a ++ 95 :: b)
  = (run consonants vowels start a).1
    ++ yield_if (segment (run consonants vowels start a).2)
    ++ [u "_"] ++ scan consonants vowels start b.
Proof.
  intros Ha.
  rewrite !scan_run, run_app, run_cons, step_underscore.
  simpl fst; simpl snd.
  rewrite (run_no_stress start a Ha eq_refl).
  fold start. rewrite <- !app_assoc. reflexivity.
Qed.

(** Tokenization splits at a word boundary: when the first word has no
    stress mark, the tokens of [a_b] are the tokens of [a] (without an
    empty last one), the boundary token, and the tokens of [b]. *)
Theorem tokenize_word_boundary a b init last tokens_b :
  Forall (fun c => branch_of consonants vowels c <> StressMark) a ->
  (forall b', b <> 42 :: b') ->
  tokenize consonants vowels a = Ok (init ++ [last]) ->
  tokenize consonants vowels b = Ok tokens_b ->
  tokenize consonants vowels (a ++ u "_" ++ b)
  = Ok (init ++ yield_if last ++ [u "_"] ++ tokens_b).
Proof.
  intros Ha Hstar Htok_a Htok_b.
  destruct b as [|cb b]; [discriminate|].
  rewrite tokenize_cons in Htok_b.
  rewrite decide_False in Htok_b
    by (intros E; injection E as ->; exact (Hstar b eq_refl)).
  injection Htok_b as <-.
  destruct a as [|ca a]; [discriminate|].
  rewrite tokenize_cons, scan_run in Htok_a. injection Htok_a as Htok_a.
  apply app_inj_tail in Htok_a as [<- <-].
  rewrite <- app_comm_cons, tokenize_cons. f_equal.
  destruct (decide ([ca] = u "*")) as [Hc|Hc].
  - apply (scan_word_boundary a (cb :: b)).
    apply Forall_cons in Ha as [_ Ha]. exact Ha.
  - apply (scan_word_boundary (ca :: a) (cb :: b)). exact Ha.
Qed.

End SegmenterBoundary.

Lemma tokenize_word_boundary_witness :
  tokenize clpa_consonants clpa_vowels (u "pa." ++ u "_" ++ u "ti")
  = Ok ([u "p"; u "a"] ++ yield_if (u "") ++ [u "_"] ++ [u "t"; u "i"]).
Proof.
  apply (tokenize_word_boundary clpa_consonants clpa_vowels
           (u "pa.") (u "ti") [u "p"; u "a"] (u "") [u "t"; u "i"]).
  - repeat constructor; vm_compute; discriminate.
  - intros b'. discriminate.
  - vm_compute. reflexivity.
  - vm_compute. reflexivity.
Defined.

(** ** String replacement *)

(** [replace] leaves no occurrence of [old] when [new] has none, and
    changes nothing when the string has none. *)
Lemma replace_removes old new s :
  (old ∉ new -> old ∉ replace [old] new s)
  /\ (old ∉ s -> replace [old] new s = s).
Proof.
  unfold replace. split.
  - intros Hnew Hin. apply list_elem_of_In, in_concat in Hin as (x & Hx & Hin).
    apply in_map_iff in Hx as (c & <- & _).
    destruct (decide ([c] = [old])) as [_|Hc].
    + apply Hnew, list_elem_of_In, Hin.
    + destruct Hin as [->|[]]. congruence.
  - induction s as [|c s IH]; intros Hs; [reflexivity|]. simpl.
    rewrite decide_False.
    + simpl. f_equal. apply IH. intros H. apply Hs. right. exact H.
    + intros [= ->]. apply Hs. left.
Qed.

(** Every line break of a comment becomes "; " and nothing else changes:
    no line break is left in a COMMENT entry, a comment without line break
    is unchanged, and the entry of two texts joined by a line break is their
    entries joined by "; ". *)
Theorem COMMENT_entry_one_line x :
  (10 ∉ COMMENT_entry x)
  /\ (10 ∉ x -> COMMENT_entry x = x)
  /\ (forall a b, x = a ++ newline ++ b ->
      COMMENT_entry x = COMMENT_entry a ++ u "; " ++ COMMENT_entry b).
Proof.
  unfold COMMENT_entry. split; [|split].
  - apply (replace_removes 10 (u "; ") x).
    intros H. repeat (apply elem_of_cons in H as [H|H]; [discriminate|]).
    apply elem_of_nil in H. contradiction.
  - apply (replace_removes 10 (u "; ") x).
  - intros a b ->. rewrite !replace_app. reflexivity.
Qed.

Lemma COMMENT_entry_one_line_witness :
  COMMENT_entry (u "first" ++ newline ++ u "second" ++ newline ++ u "third")
  = u "first; second; third".
Proof.
  pose proof (proj2 (proj2 (COMMENT_entry_one_line
                (u "first" ++ newline ++ u "second" ++ newline ++ u "third")))
                (u "first") (u "second" ++ newline ++ u "third") eq_refl)
    as H1.
  pose proof (proj2 (proj2 (COMMENT_entry_one_line
                (u "second" ++ newline ++ u "third")))
                (u "second") (u "third") eq_refl) as H2.
  rewrite H1, H2.
  rewrite (proj1 (proj2 (COMMENT_entry_one_line (u "first")))) by by_decide.
  rewrite (proj1 (proj2 (COMMENT_entry_one_line (u "second")))) by by_decide.
  rewrite (proj1 (proj2 (COMMENT_entry_one_line (u "third")))) by by_decide.
  reflexivity.
Defined.

Example COMMENT_entry_run :
  COMMENT_entry (u "first" ++ newline ++ u "second") = u "first; second".
Proof. reflexivity. Qed.

(** ** The alignment synthesizer: errors and stability *)

Section AlignmentMore.
Variables consonants vowels : list pystr.
Variable repr : Z -> pystr.

Lemma normalize_no_newline form : 10 ∉ normalize repr form.
Proof.
  rewrite normalize_map. intros H.
  apply list_elem_of_fmap in H as (c & Hc & _).
  repeat case_decide; first [discriminate | congruence].
Qed.

Lemma join_elem x sep l :
  x ∈ join sep l -> x ∈ sep \/ exists t, t ∈ l /\ x ∈ t.
Proof.
  induction l as [|t l IH]; simpl.
  - intros H. apply elem_of_nil in H. contradiction.
  - destruct l as [|t' l].
    + intros H. right. exists t. split; [left|exact H].
    + intros H. apply elem_of_app in H as [H|H].
      * right. exists t. split; [left|exact H].
      * apply elem_of_app in H as [H|H]; [left; exact H|].
        destruct (IH H) as [?|(t0 & Ht0 & Hx)]; [left; assumption|].
        right. exists t0. split; [right; exact Ht0|exact Hx].
Qed.

(** The tokens of a form without line break have none either. *)
Lemma tokens_no_newline form tokens :
  10 ∉ form ->
  tokenize consonants vowels form = Ok tokens ->
  10 ∉ join (u " ") tokens.
Proof.
  intros Hform Htok Hin.
  apply join_elem in Hin as [Hin|(t & Ht & Hin)].
  { apply list_elem_of_singleton in Hin. discriminate. }
  destruct form as [|c form]; [discriminate|].
  rewrite tokenize_cons, scan_run in Htok. injection Htok as <-.
  set (form' := if decide ([c] = u "*") then form else c :: form) in *.
  assert (H10 : 10 ∈ unstressed
                  (concat (run consonants vowels start form').1
                   ++ segment (run consonants vowels start form').2)).
  { apply list_elem_of_In, filter_In. split; [|reflexivity].
    apply list_elem_of_In. apply elem_of_app in Ht as [Ht|Ht].
    - apply elem_of_app. left. apply list_elem_of_In, in_concat.
      exists t. split; apply list_elem_of_In; assumption.
    - apply list_elem_of_singleton in Ht. subst t.
      apply elem_of_app. right. exact Hin. }
  rewrite run_content in H10. simpl in H10.
  apply list_elem_of_In, filter_In in H10 as [H10 _].
  apply in_map_iff in H10 as (c0 & Hc0 & Hcin).
  apply subst_char_newline in Hc0. subst c0.
  apply Hform. apply list_elem_of_In in Hcin. unfold form' in Hcin.
  destruct (decide ([c] = u "*")); [right; exact Hcin|exact Hcin].
Qed.

(** Feeding the alignment yielded for a row back in as its ALIGNMENT
    yields it again. *)
Theorem alignment_entry_stable form al out :
  alignment_entry consonants vowels repr form (Some (Str al)) = Ok out ->
  alignment_entry consonants vowels repr form (Some (Str out)) = Ok out.
Proof.
  unfold alignment_entry. cbv zeta.
  destruct (tokenize consonants vowels (normalize repr form)) as [tokens|e]
    eqn:Htok.
  2: { destruct (decide (replace newline (u ";") al ∈ [u ""; u "nan"]));
       discriminate. }
  assert (Hjoin : replace newline (u ";") (join (u " ") tokens)
                  = join (u " ") tokens).
  { apply (replace_removes 10 (u ";")).
    eapply tokens_no_newline; [apply normalize_no_newline|exact Htok]. }
  assert (Hsynth :
    (if decide (join (u " ") tokens ∈ [u ""; u "nan"])
     then tokens0 ← Ok tokens; mret (join (u " ") tokens0)
     else tokens0 ← Ok tokens;
          if decide (tokens0 ≠ gap_free (join (u " ") tokens))
          then tokens1 ← Ok tokens; mret (join (u " ") tokens1)
          else mret (join (u " ") tokens))
    = Ok (join (u " ") tokens)).
  { destruct (decide (join (u " ") tokens ∈ [u ""; u "nan"])); [reflexivity|].
    simpl. destruct (decide (tokens ≠ gap_free (join (u " ") tokens)));
      reflexivity. }
  destruct (decide (replace newline (u ";") al ∈ [u ""; u "nan"]))
    as [Hblank|Hblank].
  - simpl. intros [= <-]. rewrite Hjoin. exact Hsynth.
  - simpl. destruct (decide (tokens ≠ gap_free (replace newline (u ";") al)))
      as [Hstale|Hkept].
    + simpl. intros [= <-]. rewrite Hjoin. exact Hsynth.
    + intros [= <-].
      assert (Hidem : replace newline (u ";") (replace newline (u ";") al)
                      = replace newline (u ";") al).
      { apply (replace_removes 10 (u ";")).
        apply (replace_removes 10 (u ";") al).
        intros H. apply list_elem_of_singleton in H. discriminate. }
      rewrite Hidem. rewrite decide_False by exact Hblank. simpl.
      rewrite decide_False by exact Hkept. reflexivity.
Qed.

Lemma alignment_entry_returns form al :
  (exists out, alignment_entry consonants vowels repr form al = Ok out)
  <-> (exists s, al = Some (Str s)) /\ normalize repr form <> [].
Proof.
  split.
  - intros [out Hout]. unfold alignment_entry in Hout.
    destruct al as [[s|z]|]; try discriminate.
    split; [eauto|]. intros Hnil. rewrite Hnil in Hout. simpl in Hout.
    destruct (decide _); discriminate.
  - intros [[s ->] Hne].
    destruct (tokenize_ok consonants vowels _ Hne) as [tokens Htok].
    destruct (alignment_entry_cases consonants vowels repr form s tokens Htok)
      as (out & Hout & _).
    eauto.
Qed.

Lemma alignment_entry_raises form al :
  ~ ((exists s, al = Some (Str s)) /\ normalize repr form <> []) ->
  alignment_entry consonants vowels repr form al
  = Raise (match al with
           | Some (Str _) => IndexError
           | _ => AttributeError
           end).
Proof.
  intros Hbad. unfold alignment_entry. cbv zeta.
  destruct al as [[s|z]|]; try reflexivity.
  destruct (normalize repr form) as [|c f] eqn:Hn.
  - simpl. destruct (decide _); reflexivity.
  - exfalso. apply Hbad. split; [eauto|discriminate].
Qed.

(** [list(alignment(data))] returns when every row has a string in
    ALIGNMENT and a non-empty transcription, with the entry of each row in
    its place; otherwise it raises, with the exception of the first row
    that lacks one of the two: AttributeError for an ALIGNMENT that is not
    a string (a missing one included), IndexError for an empty
    transcription. *)
Theorem alignment_returns data :
  let good (row : cell * cell) :=
    (exists s, row.2 = Some (Str s)) /\ normalize repr row.1 <> [] in
  (Forall good data ->
   exists outs,
     alignment consonants vowels repr data = Ok outs
     /\ length outs = length data
     /\ Forall2 (fun row out =>
                   alignment_entry consonants vowels repr row.1 row.2 = Ok out)
                data outs)
  /\ (forall before row after,
        data = before ++ row :: after ->
        Forall good before -> ~ good row ->
        alignment consonants vowels repr data
        = Raise (match row.2 with
                 | Some (Str _) => IndexError
                 | _ => AttributeError
                 end)).
Proof.
  intros good. unfold alignment. split.
  - intros Hall.
    destruct (mapM_total
      (fun row => alignment_entry consonants vowels repr row.1 row.2) data)
      as [outs Houts].
    + intros row Hrow. apply alignment_entry_returns.
      exact (proj1 (Forall_forall _ _) Hall row Hrow).
    + exists outs. split; [exact Houts|].
      apply mapM_Ok in Houts. split; [|exact Houts].
      symmetry. eapply Forall2_length, Houts.
  - intros before row after -> Hbefore Hrow.
    induction Hbefore as [|x before Hx _ IH]; simpl.
    + rewrite (alignment_entry_raises row.1 row.2 Hrow). reflexivity.
    + apply alignment_entry_returns in Hx as [out ->]. simpl.
      rewrite IH. reflexivity.
Qed.

Lemma replace_char_map o n s :
  replace [o] [n] s = map (fun c => if decide (c = o) then n else c) s.
Proof.
  induction s as [|c s IH]; [reflexivity|].
  change (c :: s) with ([c] ++ s). rewrite replace_app, IH, replace_char.
  simpl. destruct (decide (c = o)); reflexivity.
Qed.

(** Stage 0 replaces the spaces of IPA before it calls [alignment]: that
    changes nothing in what [alignment] yields, and for a blank ALIGNMENT
    and an IPA without line break the ALIGNMENT written is the TOKENS
    entry. *)
Theorem alignment_after_IPA_entry s x :
  IPA_entry (Some (Str s)) = Ok x ->
  (forall al, alignment_entry consonants vowels repr (Some (Str x)) al
              = alignment_entry consonants vowels repr (Some (Str s)) al)
  /\ (10 ∉ s ->
      forall al, replace newline (u ";") al ∈ [u ""; u "nan"] ->
      alignment_entry consonants vowels repr (Some (Str x)) (Some (Str al))
      = TOKENS_entry consonants vowels x).
Proof.
  simpl. intros [= <-].
  assert (Hx : replace (u " ") (u "_") s
               = map (fun c => if decide (c = 32) then 95 else c) s)
    by apply (replace_char_map 32 95).
  assert (Hnorm : normalize repr (Some (Str (replace (u " ") (u "_") s)))
                  = normalize repr (Some (Str s))).
  { rewrite !normalize_map. simpl str. rewrite Hx, map_map.
    apply map_ext. intros c.
    destruct (decide (c = 32)) as [->|Hc]; [reflexivity|].
    repeat case_decide; congruence. }
  split.
  - intros al. unfold alignment_entry. rewrite Hnorm. reflexivity.
  - intros Hnl al Hblank.
    assert (Hid : normalize repr (Some (Str s)) = replace (u " ") (u "_") s).
    { rewrite normalize_map, Hx. simpl str. apply map_ext_in.
      intros c Hc. destruct (decide (c = 10)) as [->|_]; [|reflexivity].
      exfalso. apply Hnl, list_elem_of_In, Hc. }
    unfold alignment_entry, TOKENS_entry. cbv zeta.
    rewrite Hnorm, Hid, decide_True by exact Hblank. reflexivity.
Qed.

End AlignmentMore.

Lemma alignment_returns_witness :
  alignment clpa_consonants clpa_vowels repr_int
    [(Some (Str (u "pai")), Some (Str (u "")));
     (Some (Str (u "tama")), None);
     (Some (Str (u "")), Some (Str (u "")))]
  = Raise AttributeError
  /\ alignment clpa_consonants clpa_vowels repr_int
       [(Some (Str (u "pai")), Some (Str (u "")));
        (Some (Str (u "")), Some (Str (u "")));
        (Some (Str (u "tama")), None)]
     = Raise IndexError.
Proof.
  split.
  - apply (proj2 (alignment_returns clpa_consonants clpa_vowels repr_int _)
             [(Some (Str (u "pai")), Some (Str (u "")))]
             (Some (Str (u "tama")), None)
             [(Some (Str (u "")), Some (Str (u "")))] eq_refl).
    + repeat constructor; [eexists; reflexivity|vm_compute; discriminate].
    + intros [[s E] _]. discriminate E.
  - apply (proj2 (alignment_returns clpa_consonants clpa_vowels repr_int _)
             [(Some (Str (u "pai")), Some (Str (u "")))]
             (Some (Str (u "")), Some (Str (u "")))
             [(Some (Str (u "tama")), None)] eq_refl).
    + repeat constructor; [eexists; reflexivity|vm_compute; discriminate].
    + intros [_ E]. apply E. reflexivity.
Defined.

Lemma alignment_entry_stable_witness :
  alignment_entry clpa_consonants clpa_vowels repr_int
    (Some (Str (u "pa-ti"))) (Some (Str (u "p a - t i"))) = Ok (u "p a - t i").
Proof.
  apply (alignment_entry_stable clpa_consonants clpa_vowels repr_int
           (Some (Str (u "pa-ti"))) (u "p a t i")).
  vm_compute. reflexivity.
Defined.

Lemma alignment_after_IPA_entry_witness :
  alignment_entry clpa_consonants clpa_vowels repr_int
    (Some (Str (u "pa_ti"))) (Some (Str (u "nan")))
  = TOKENS_entry clpa_consonants clpa_vowels (u "pa_ti").
Proof.
  apply (alignment_after_IPA_entry clpa_consonants clpa_vowels repr_int
           (u "pa ti") (u "pa_ti")).
  - reflexivity.
  - intros H. repeat (apply elem_of_cons in H as [H|H]; [discriminate|]).
    apply elem_of_nil in H. contradiction.
  - by_decide.
Defined.

(** ** The cognate resolver: what the loop leaves behind *)

Module ResolverMore.
Import Resolver ResolverFacts.

Section LoopMore.
Variable repr : Z -> pystr.
Variable args_reset : list pystr.

Lemma erase_clear t : erase (clear t) = erase t.
Proof.
  unfold erase, clear. destruct (coding t); simpl; rewrite map_map; reflexivity.
Qed.

Lemma resolve_rows_erased st i rows :
  erase (tables (resolve_rows repr args_reset st i rows)) = erase (tables st).
Proof.
  revert st i. induction rows as [|row rows IH]; intros st i; [reflexivity|].
  simpl. rewrite IH. apply erase_set_value.
Qed.

(** The loop writes LONG_COGID and nothing else: every other column of
    both frames, and the number of rows, are as they were loaded. *)
Theorem resolve_keeps_columns t :
  erase (tables (resolve repr args_reset t)) = erase t.
Proof.
  unfold resolve. simpl tables. rewrite resolve_rows_erased. simpl.
  apply erase_clear.
Qed.

Lemma cognates_clear t :
  cognates (clear t) = map (with_LONG_COGID None) (cognates t).
Proof. unfold cognates, clear. destruct (coding t); reflexivity. Qed.

(** The final LONG_COGID of the row at position [i]. *)
Lemma resolve_lookup t i row :
  cognates (clear t) !! i = Some row ->
  LONG_COGID <$> cognates (tables (resolve repr args_reset t)) !! i
  = Some (Some (triple (representative repr args_reset (clear t) row))).
Proof.
  intros Hrow. unfold resolve. simpl tables.
  pose proof (resolve_rows_at repr args_reset
    {| tables := clear t; pairs := ∅; printed := [] |} 0
    (cognates (clear t)) i row Hrow) as Hat.
  change (0 + i)%nat with i in Hat.
  apply Hat. eapply lookup_lt_Some, Hrow.
Qed.

(** Every row of the working table ends with a LONG_COGID: the triple of
    the representative chosen for it. *)
Theorem resolve_assigns_every_row t i r :
  cognates (tables (resolve repr args_reset t)) !! i = Some r ->
  exists row,
    cognates (clear t) !! i = Some row
    /\ LONG_COGID r
       = Some (triple (representative repr args_reset (clear t) row)).
Proof.
  intros Hr.
  assert (Hlen : length (cognates (tables (resolve repr args_reset t)))
                 = length (cognates (clear t))).
  { unfold resolve. simpl tables.
    pose proof (f_equal (fun t => length (cognates t))
                  (resolve_rows_erased
                     {| tables := clear t; pairs := ∅; printed := [] |}
                     0 (cognates (clear t)))) as H.
    simpl in H. rewrite !cognates_erase, !length_map in H. exact H. }
  destruct (lookup_lt_is_Some_2 (cognates (clear t)) i) as [row Hrow].
  { rewrite <- Hlen. eapply lookup_lt_Some, Hr. }
  exists row. split; [exact Hrow|].
  pose proof (resolve_lookup t i row Hrow) as H.
  rewrite Hr in H. injection H as H. exact H.
Qed.

(** A row that is not reset has a label, and the rows sharing it include
    the row itself. *)
Lemma sharing_own_label t i row :
  cognates t !! i = Some row ->
  reset repr args_reset row = false ->
  exists first rest,
    sharing COGNATE_SET (COGNATE_SET row) (cognates t) = first :: rest.
Proof.
  intros Hrow Hreset.
  assert (Hself : In row (sharing COGNATE_SET (COGNATE_SET row) (cognates t))).
  { apply filter_In. split.
    - apply list_elem_of_In. eapply list_elem_of_lookup_2, Hrow.
    - unfold reset in Hreset. destruct (COGNATE_SET row) as [v|].
      + simpl. apply bool_decide_eq_true. reflexivity.
      + simpl in Hreset. discriminate. }
  destruct (sharing COGNATE_SET (COGNATE_SET row) (cognates t)) as [|f r];
    [destruct Hself|eauto].
Qed.

Lemma resolve_rows_printed_inv st i rows x :
  x ∈ printed (resolve_rows repr args_reset st i rows) ->
  x ∈ printed st
  \/ exists k row, rows !! k = Some row
                   /\ x ∈ (outcome repr args_reset (tables st) row).2.
Proof.
  revert st i. induction rows as [|r rows IH]; intros st i; [tauto|].
  simpl resolve_rows. intros H. apply IH in H as [H|(k & row & Hk & Hx)].
  - simpl in H. apply elem_of_app in H as [H|H]; [tauto|].
    right. exists 0%nat, r. split; [reflexivity|exact H].
  - right. exists (S k), row. split; [exact Hk|].
    rewrite (outcome_same repr args_reset _ (tables st)) in Hx
      by apply erase_set_value.
    exact Hx.
Qed.

(** The message of the empty frame is printed only for a reset row whose
    pool is empty; a row that keeps its manual label never gets it. *)
Theorem NoCoding_only_for_reset_rows t who :
  NoCoding who ∈ printed (resolve repr args_reset t) ->
  exists i row,
    cognates (clear t) !! i = Some row
    /\ who = triple row
    /\ reset repr args_reset row = true
    /\ representatives repr args_reset (clear t) row = [].
Proof.
  unfold resolve. simpl printed. intros H.
  apply elem_of_app in H as [H|H].
  2: { apply list_elem_of_singleton in H. discriminate. }
  apply resolve_rows_printed_inv in H as [H|(i & row & Hi & Hx)].
  { apply elem_of_nil in H. contradiction. }
  simpl in Hx. unfold notices in Hx.
  apply elem_of_app in Hx as [Hx|Hx].
  { destruct (reset repr args_reset row); [|apply elem_of_nil in Hx; contradiction].
    apply list_elem_of_singleton in Hx. discriminate. }
  destruct (representatives repr args_reset (clear t) row) as [|f r] eqn:Hpool;
    [|apply elem_of_nil in Hx; contradiction].
  apply list_elem_of_singleton in Hx. injection Hx as ->.
  exists i, row. repeat split; try assumption.
  destruct (reset repr args_reset row) eqn:Hreset; [reflexivity|].
  destruct (sharing_own_label (clear t) i row Hi Hreset) as (f & r & Hf).
  unfold representatives in Hpool. rewrite Hreset, Hf in Hpool. discriminate.
Qed.

(** A recorded pair never holds one concept twice: its two entries differ
    under [!=], so they are equal only when both are missing. *)
Theorem pairs_differ t a b :
  (a, b) ∈ pairs (resolve repr args_reset t) ->
  py_ne a b = true /\ (forall v, a = Some v -> b <> Some v).
Proof.
  unfold resolve. simpl pairs. intros H.
  assert (Hne : py_ne a b = true).
  { apply resolve_rows_pairs in H as [H|(k & row & _ & Hne & Hp)].
    - apply elem_of_empty in H. contradiction.
    - injection Hp as -> ->. exact Hne. }
  split; [exact Hne|].
  intros v -> ->. unfold py_ne, py_eq in Hne.
  rewrite bool_decide_eq_true_2 in Hne by reflexivity. discriminate.
Qed.

End LoopMore.

End ResolverMore.

(** ** Compact cognate IDs: stability and scoping *)

Section AssignMore.
Context `{EqDecision K}.

Lemma collect_app (acc keys more : list K) :
  Assigner.collect acc (keys ++ more)
  = Assigner.collect (Assigner.collect acc keys) more.
Proof.
  revert acc. induction keys as [|k keys IH]; intros acc; [reflexivity|].
  simpl. destruct (decide (k ∈ acc)); apply IH.
Qed.

(** Appending rows leaves the numbers of the rows before them as they
    are. *)
Lemma assign_app (keys more : list K) ids :
  Assigner.assign keys = Ok ids ->
  exists ids', Assigner.assign (keys ++ more) = Ok (ids ++ ids')
               /\ length ids' = length more.
Proof.
  intros Hids.
  destruct (assign_positions keys) as (ids0 & Hids0 & Hpos).
  assert (ids0 = ids) as -> by congruence.
  destruct (assign_positions (keys ++ more)) as (all & Hall & Hposall).
  apply Forall2_app_inv_l in Hposall as (ids1 & ids' & Hpos1 & Hpos' & ->).
  exists ids'. split; [|symmetry; eapply Forall2_length, Hpos'].
  rewrite Hall. do 2 f_equal.
  pose proof (collect_NoDup [] (keys ++ more) (NoDup_nil_2)) as ND.
  destruct (collect_extends (Assigner.collect [] keys) more) as [ext Hext].
  rewrite <- collect_app in Hext.
  apply list_eq. intros i.
  destruct (keys !! i) as [k|] eqn:Hk.
  - destruct (Forall2_lookup_l _ _ _ _ _ Hpos1 Hk) as (x & Hx & n & Hn & ->).
    destruct (Forall2_lookup_l _ _ _ _ _ Hpos Hk) as (y & Hy & m & Hm & ->).
    rewrite Hx, Hy. do 2 f_equal.
    eapply NoDup_lookup; [exact ND|exact Hn|].
    rewrite Hext. rewrite lookup_app_l; [exact Hm|].
    eapply lookup_lt_Some, Hm.
  - apply lookup_ge_None in Hk.
    rewrite (proj2 (lookup_ge_None ids1 i))
      by (rewrite <- (Forall2_length _ _ _ Hpos1); exact Hk).
    rewrite (proj2 (lookup_ge_None ids i))
      by (rewrite <- (Forall2_length _ _ _ Hpos); exact Hk).
    reflexivity.
Qed.

End AssignMore.

(** Appending rows to the table leaves the COGIDs of the rows before them
    as they are, in both modes. *)
Theorem COGID_stable_under_append within_meaning cognates more ids :
  Assigner.COGID within_meaning cognates = Ok ids ->
  exists ids',
    Assigner.COGID within_meaning (cognates ++ more) = Ok (ids ++ ids')
    /\ length ids' = length more.
Proof.
  unfold Assigner.COGID. destruct within_meaning; intros Hids.
  - destruct (assign_app _ (map Assigner.tuple more) _ Hids) as (ids' & H & Hl).
    exists ids'. rewrite map_app, H, Hl, length_map. auto.
  - destruct (assign_app _ (map Assigner.LONG_COGID more) _ Hids)
      as (ids' & H & Hl).
    exists ids'. rewrite map_app, H, Hl, length_map. auto.
Qed.

(** Meaning-scoped COGIDs refine the plain ones: two rows with the same
    COGID under [--within-meaning] have the same COGID without it, and
    there are at least as many scoped COGIDs as plain ones. *)
Theorem COGID_scoped_refines cognates scoped plain :
  Assigner.COGID true cognates = Ok scoped ->
  Assigner.COGID false cognates = Ok plain ->
  (forall i j x y, scoped !! i = Some x -> scoped !! j = Some x ->
                   plain !! i = Some y -> plain !! j = Some y)
  /\ (Assigner.distinct_keys false cognates
      <= Assigner.distinct_keys true cognates)%nat.
Proof.
  unfold Assigner.COGID. intros Hs Hp.
  destruct (assign_dense (map Assigner.tuple cognates))
    as (s' & Hs' & Hsl & Hsiff & Hsrange & _).
  destruct (assign_dense (map Assigner.LONG_COGID cognates))
    as (p' & Hp' & Hpl & Hpiff & Hprange & _).
  assert (s' = scoped) as -> by congruence.
  assert (p' = plain) as -> by congruence.
  rewrite length_map in Hsl, Hpl.
  split.
  - intros i j x y Hi Hj Hy.
    destruct (lookup_lt_is_Some_2 cognates i) as [a Ha];
      [rewrite <- Hsl; eapply lookup_lt_Some, Hi|].
    destruct (lookup_lt_is_Some_2 cognates j) as [b Hb];
      [rewrite <- Hsl; eapply lookup_lt_Some, Hj|].
    destruct (lookup_lt_is_Some_2 plain j) as [y' Hy'];
      [rewrite Hpl; eapply lookup_lt_Some, Hb|].
    rewrite Hy'. f_equal.
    assert (Htuple : Assigner.tuple a = Assigner.tuple b).
    { apply (Hsiff i j _ _ x x); try assumption;
        [rewrite list_lookup_fmap, Ha|rewrite list_lookup_fmap, Hb|];
        reflexivity. }
    symmetry. apply (Hpiff i j (Assigner.LONG_COGID a) (Assigner.LONG_COGID b));
      try assumption;
      [rewrite list_lookup_fmap, Ha|rewrite list_lookup_fmap, Hb|];
      try reflexivity.
    injection Htuple as Hl _. exact Hl.
  - unfold Assigner.distinct_keys.
    rewrite <- (length_map fst (remove_dups (map Assigner.tuple cognates))).
    apply submseteq_length, NoDup_submseteq; [apply NoDup_remove_dups|].
    intros x Hx. apply elem_of_remove_dups, list_elem_of_fmap in Hx
      as (r & -> & Hr).
    apply (list_elem_of_fmap_2' fst _ (Assigner.tuple r)); [|reflexivity].
    apply elem_of_remove_dups, list_elem_of_fmap_2, Hr.
Qed.

(** ** Alignment validation: the loop as a whole *)

Module ValidatorMore.
Import Validator ValidatorFacts.

Section ValidateMore.
Variable has_AUTO_ALIGNMENT : bool.

(** The loop over the groups, with its writes into the live frame, does
    what the row-by-row description says. *)
Lemma validate_row_by_row cogids alignments :
  validate has_AUTO_ALIGNMENT cogids alignments
  = validated has_AUTO_ALIGNMENT cogids alignments.
Proof.
  apply list_eq. intros i. unfold validated, validate.
  rewrite list_lookup_fmap.
  destruct (alignments !! i) as [r|] eqn:Hr; simpl.
  - destruct (in_bad_group cogids alignments r) eqn:Hbad.
    + apply (groups_hit has_AUTO_ALIGNMENT alignments i cogids alignments r Hr).
      unfold in_bad_group in Hbad.
      destruct (COGID r) as [v|] eqn:Hv; [|discriminate].
      apply bool_decide_eq_true in Hbad as [Hin Hsize].
      exists v. split; [exact Hin|]. split; [exact Hsize|].
      apply cognate_class_labels. eauto.
    + rewrite groups_unhit; [exact Hr|].
      intros w Hw [Hsize Hi].
      apply cognate_class_labels in Hi as (r' & Hr' & Hc').
      assert (r' = r) as -> by congruence.
      unfold in_bad_group in Hbad. rewrite Hc' in Hbad.
      apply bool_decide_eq_false in Hbad. apply Hbad. split; assumption.
  - rewrite groups_unhit; [exact Hr|].
    intros w Hw [_ Hi].
    apply cognate_class_labels in Hi as (r' & Hr' & _). congruence.
Qed.

(** Validation keeps the number of rows and the COGID and AUTO_ALIGNMENT
    columns, and leaves a row without COGID as it is. *)
Theorem validate_keeps_columns cogids alignments :
  length (validate has_AUTO_ALIGNMENT cogids alignments) = length alignments
  /\ map COGID (validate has_AUTO_ALIGNMENT cogids alignments)
     = map COGID alignments
  /\ map AUTO_ALIGNMENT (validate has_AUTO_ALIGNMENT cogids alignments)
     = map AUTO_ALIGNMENT alignments
  /\ (forall i r, alignments !! i = Some r -> COGID r = None ->
      validate has_AUTO_ALIGNMENT cogids alignments !! i = Some r).
Proof.
  rewrite validate_row_by_row. unfold validated.
  split; [apply length_map|]. split; [|split].
  - rewrite map_map. apply map_ext. intros r.
    destruct (in_bad_group cogids alignments r); reflexivity.
  - rewrite map_map. apply map_ext. intros r.
    destruct (in_bad_group cogids alignments r); reflexivity.
  - intros i r Hr Hc. rewrite list_lookup_fmap, Hr. simpl.
    unfold in_bad_group. rewrite Hc. reflexivity.
Qed.

(** Neither the order in which the groups are iterated nor a group key
    met twice changes the result. *)
Theorem validate_any_order cogids cogids' alignments :
  (forall v, v ∈ cogids <-> v ∈ cogids') ->
  validate has_AUTO_ALIGNMENT cogids alignments
  = validate has_AUTO_ALIGNMENT cogids' alignments.
Proof.
  intros Hsame. rewrite !validate_row_by_row. unfold validated.
  apply map_ext. intros r. unfold in_bad_group.
  destruct (COGID r) as [v|]; [|reflexivity].
  rewrite (bool_decide_ext _ (v ∈ cogids'
    /\ size (is_aligned (cognate_class v alignments)) <> 1%nat));
    [reflexivity|].
  rewrite Hsame. reflexivity.
Qed.

Lemma filter_map_comm {A B} (p : B -> bool) (h : A -> B) l :
  List.filter p (map h l) = map h (List.filter (fun x => p (h x)) l).
Proof.
  induction l as [|x l IH]; [reflexivity|].
  simpl. destruct (p (h x)); simpl; rewrite IH; reflexivity.
Qed.

(** The groups of a table whose rows were changed without touching COGID. *)
Lemma cognate_class_map (F : Row -> Row) cogid alignments :
  (forall r, COGID (F r) = COGID r) ->
  cognate_class cogid (map F alignments)
  = map (fun ir => (ir.1, F ir.2)) (cognate_class cogid alignments).
Proof.
  intros HF. unfold cognate_class.
  assert (E : imap pair (map F alignments)
              = map (fun ir : nat * Row => (ir.1, F ir.2))
                    (imap pair alignments)).
  { change (map F alignments) with (F <$> alignments). rewrite imap_fmap.
    change (map (fun ir : nat * Row => (ir.1, F ir.2)) (imap pair alignments))
      with ((fun ir : nat * Row => (ir.1, F ir.2)) <$> imap pair alignments).
    rewrite fmap_imap. reflexivity. }
  rewrite E, filter_map_comm. f_equal.
  apply List.filter_ext. intros [n r]. simpl. rewrite HF. reflexivity.
Qed.

Lemma cognate_class_COGID cogid alignments ir :
  In ir (cognate_class cogid alignments) -> COGID ir.2 = Some cogid.
Proof.
  unfold cognate_class. intros H. apply filter_In in H as [_ H].
  apply bool_decide_eq_true in H. exact H.
Qed.

Lemma is_aligned_nonempty cogid alignments i r :
  alignments !! i = Some r -> COGID r = Some cogid ->
  (1 <= size (is_aligned (cognate_class cogid alignments)))%nat.
Proof.
  intros Hr Hc.
  assert (Hin : In (i, r) (cognate_class cogid alignments)).
  { apply filter_In. split.
    - apply list_elem_of_In, (elem_of_lookup_imap_2 pair _ _ _ Hr).
    - apply bool_decide_eq_true. exact Hc. }
  assert (size (is_aligned (cognate_class cogid alignments)) <> 0%nat);
    [|lia].
  apply size_non_empty_iff. unfold is_aligned.
  set (count := fun ir : nat * Row =>
                  match ALIGNMENT ir.2 with
                  | None => None
                  | Some x => Some (length (split x))
                  end).
  intros Hempty.
  apply (not_elem_of_empty (C := gset (option nat)) (count (i, r))).
  rewrite <- Hempty. apply elem_of_list_to_set.
  apply list_elem_of_In, in_map, Hin.
Qed.

(** The row-by-row change keeps a group that is not bad as it is. *)
Lemma validated_class cogids alignments cogid :
  ~ (cogid ∈ cogids
     /\ size (is_aligned (cognate_class cogid alignments)) <> 1%nat) ->
  cognate_class cogid (validated has_AUTO_ALIGNMENT cogids alignments)
  = cognate_class cogid alignments.
Proof.
  intros Hgood. unfold validated.
  rewrite cognate_class_map
    by (intros r; destruct (in_bad_group cogids alignments r); reflexivity).
  rewrite <- (map_id (cognate_class cogid alignments)) at 2.
  apply map_ext_in. intros [i r] Hin.
  apply cognate_class_COGID in Hin. simpl in Hin. simpl.
  unfold in_bad_group. rewrite Hin.
  rewrite bool_decide_eq_false_2 by exact Hgood. reflexivity.
Qed.

(** Validating a validated table changes nothing. *)
Theorem validate_idempotent cogids alignments :
  validate has_AUTO_ALIGNMENT cogids
    (validate has_AUTO_ALIGNMENT cogids alignments)
  = validate has_AUTO_ALIGNMENT cogids alignments.
Proof.
  rewrite !validate_row_by_row.
  apply list_eq. intros i.
  unfold validated at 1. rewrite list_lookup_fmap.
  destruct (validated has_AUTO_ALIGNMENT cogids alignments !! i) as [r'|]
    eqn:Hr'; [|reflexivity].
  simpl. f_equal.
  unfold validated in Hr'. rewrite list_lookup_fmap in Hr'.
  destruct (alignments !! i) as [r|]; [|discriminate].
  simpl in Hr'. injection Hr' as <-.
  destruct (in_bad_group cogids alignments r) eqn:Hbad.
  - destruct (in_bad_group cogids
                (validated has_AUTO_ALIGNMENT cogids alignments)
                (reset_row has_AUTO_ALIGNMENT r)); reflexivity.
  - assert (Hstill : in_bad_group cogids
                       (validated has_AUTO_ALIGNMENT cogids alignments) r
                     = false).
    { unfold in_bad_group in *.
      destruct (COGID r) as [v|]; [|reflexivity].
      apply bool_decide_eq_false in Hbad. apply bool_decide_eq_false.
      rewrite validated_class by exact Hbad. exact Hbad. }
    fold (validated has_AUTO_ALIGNMENT cogids alignments).
    rewrite Hstill. reflexivity.
Qed.

End ValidateMore.

(** Without an AUTO_ALIGNMENT column the set the loop computes for an
    iterated group has one element afterwards. *)
Lemma validate_one_count cogids alignments i r cogid :
  alignments !! i = Some r ->
  COGID r = Some cogid ->
  cogid ∈ cogids ->
  size (is_aligned (cognate_class cogid (validate false cogids alignments)))
  = 1%nat.
Proof.
  intros Hr Hc Hin. rewrite validate_row_by_row.
  destruct (decide (size (is_aligned (cognate_class cogid alignments)) = 1%nat))
    as [Hone|Hmany].
  - rewrite validated_class; [exact Hone|]. intros [_ H]. contradiction.
  - assert (Hge : (1 <= size (is_aligned (cognate_class cogid
                      (validated false cogids alignments))))%nat).
    { apply (is_aligned_nonempty cogid _ i
               (if in_bad_group cogids alignments r
                then reset_row false r else r)).
      - unfold validated. rewrite list_lookup_fmap, Hr. reflexivity.
      - destruct (in_bad_group cogids alignments r); exact Hc. }
    assert (Hle : (size (is_aligned (cognate_class cogid
                      (validated false cogids alignments))) <= 1)%nat);
      [|lia].
    rewrite <- (size_singleton (C := gset (option nat)) (Some 1%nat)).
    apply subseteq_size. intros x Hx.
    unfold is_aligned in Hx. apply elem_of_list_to_set in Hx.
    apply list_elem_of_In, in_map_iff in Hx as ([j r'] & <- & Hj).
    unfold validated in Hj.
    rewrite cognate_class_map in Hj
      by (intros r0; destruct (in_bad_group cogids alignments r0); reflexivity).
    apply in_map_iff in Hj as ([k r0] & [= <- <-] & Hk).
    apply cognate_class_COGID in Hk. simpl in Hk. simpl.
    unfold in_bad_group. rewrite Hk.
    rewrite bool_decide_eq_true_2 by (split; assumption).
    apply elem_of_singleton. reflexivity.
Qed.


End ValidatorMore.

(** ** Runs of the further properties *)

Lemma resolve_assigns_every_row_witness :
  let r := Resolver.with_LONG_COGID
             (Some (Some (Str (u "wers1238")), Some (Str (u "hand")),
                    Some (Str (u "teŋ"))))
             (form_row (u "Wersing") (u "wers1238") (u "hand") (u "teŋ")
                None None) in
  exists row,
    Resolver.cognates (Resolver.clear two_resets) !! 2%nat = Some row
    /\ Resolver.LONG_COGID r
       = Some (Resolver.triple
                 (Resolver.representative repr_int []
                    (Resolver.clear two_resets) row)).
Proof.
  intros r.
  apply (ResolverMore.resolve_assigns_every_row repr_int [] two_resets 2 r).
  vm_compute. reflexivity.
Defined.

Lemma NoCoding_only_for_reset_rows_witness :
  exists i row,
    Resolver.cognates (Resolver.clear two_resets) !! i = Some row
    /\ (Some (Str (u "wers1238")), Some (Str (u "hand")),
        Some (Str (u "teŋ"))) = Resolver.triple row
    /\ Resolver.reset repr_int [] row = true
    /\ Resolver.representatives repr_int [] (Resolver.clear two_resets) row
       = [].
Proof.
  apply (ResolverMore.NoCoding_only_for_reset_rows repr_int [] two_resets).
  vm_compute. do 3 right. left.
Defined.

Lemma pairs_differ_witness :
  py_ne (Some (Str (u "arm"))) (Some (Str (u "hand"))) = true
  /\ (forall v, Some (Str (u "arm")) = Some v -> Some (Str (u "hand")) <> Some v).
Proof.
  apply (ResolverMore.pairs_differ repr_int [] cross_meaning).
  by_decide.
Defined.

Lemma COGID_stable_under_append_witness :
  exists ids',
    Assigner.COGID true (firstn 2 merged_rows ++ skipn 2 merged_rows)
    = Ok ([1; 2]%nat ++ ids')
    /\ length ids' = length (skipn 2 merged_rows).
Proof.
  apply (COGID_stable_under_append true (firstn 2 merged_rows)
           (skipn 2 merged_rows) [1; 2]%nat).
  vm_compute. reflexivity.
Defined.

Lemma COGID_scoped_refines_witness :
  (forall i j x y,
     [1; 2; 3]%nat !! i = Some x -> [1; 2; 3]%nat !! j = Some x ->
     [1; 1; 2]%nat !! i = Some y -> [1; 1; 2]%nat !! j = Some y)
  /\ (Assigner.distinct_keys false merged_rows
      <= Assigner.distinct_keys true merged_rows)%nat.
Proof.
  apply (COGID_scoped_refines merged_rows [1; 2; 3]%nat [1; 1; 2]%nat);
    vm_compute; reflexivity.
Defined.

Lemma validate_any_order_witness :
  Validator.validate true [Num 1; Num 2] scenario_D
  = Validator.validate true [Num 2; Num 1; Num 2] scenario_D.
Proof.
  apply ValidatorMore.validate_any_order.
  intros v. rewrite !elem_of_cons, !elem_of_nil. tauto.
Defined.

(** ** The code against the notions of the specification *)

Section FilterFacts.
Context {A : Type} (P : A -> Prop) `{!forall x, Decision (P x)}.

(** Selecting rows with a test is selecting the rows with the property the
    test decides. *)
Lemma filter_decide (p : A -> bool) l :
  (forall x, p x = true <-> P x) -> List.filter p l = base.filter P l.
Proof.
  intros Hp. induction l as [|x l IH]; [reflexivity|].
  simpl. rewrite filter_cons. destruct (decide (P x)) as [HP|HP].
  - rewrite (proj2 (Hp x) HP). f_equal. exact IH.
  - destruct (p x) eqn:E; [apply Hp in E; contradiction|exact IH].
Qed.

Lemma filter_first l x rest :
  base.filter P l = x :: rest -> exists k, first_with P l k x.
Proof.
  induction l as [|y l IH]; [discriminate|].
  rewrite filter_cons. destruct (decide (P y)) as [HP|HP].
  - intros [= -> _]. exists 0%nat. split; [reflexivity|]. split; [exact HP|].
    intros k' r' Hk. lia.
  - intros Hl. destruct (IH Hl) as (k & Hk & Hx & Hbefore).
    exists (S k). split; [exact Hk|]. split; [exact Hx|].
    intros [|k'] r' Hlt Hr'.
    + injection Hr' as <-. exact HP.
    + apply (Hbefore k' r'); [lia|exact Hr'].
Qed.

Lemma first_filter l k x :
  first_with P l k x -> exists rest, base.filter P l = x :: rest.
Proof.
  revert k. induction l as [|y l IH]; intros k (Hk & Hx & Hbefore);
    [discriminate|].
  rewrite filter_cons. destruct k as [|k].
  - injection Hk as ->. rewrite decide_True by exact Hx. eauto.
  - rewrite decide_False by (apply (Hbefore 0%nat y); [lia|reflexivity]).
    apply (IH k). split; [exact Hk|]. split; [exact Hx|].
    intros k' r' Hlt Hr'. apply (Hbefore (S k') r'); [lia|exact Hr'].
Qed.

End FilterFacts.

Lemma py_eq_same_value a b : py_eq a b = true <-> same_value a b.
Proof.
  unfold py_eq, same_value. destruct a as [x|], b as [y|]; split;
    try discriminate;
    try (intros (v & E1 & E2); discriminate).
  - intros H. apply bool_decide_eq_true in H. subst y. eauto.
  - intros (v & E1 & E2). apply bool_decide_eq_true. congruence.
Qed.

(** The test of stage 2 for a row without label. *)
Lemma reset_test_unlabelled c :
  py_eq c (Some (Str (u "nan"))) || negb (truthy c) || isnull c = true
  <-> unlabelled c.
Proof.
  unfold unlabelled. rewrite <- absent_cases. unfold absent.
  destruct (py_eq c (Some (Str (u "nan")))), (truthy c), (isnull c);
    simpl; tauto.
Qed.

Module ResolverSpecFacts.
Import Resolver ResolverFacts ResolverMore ResolverSpec.

Section Against.
Variable repr : Z -> pystr.
Variable args_reset : list pystr.

(** The reset test of the loop marks the rows the specification calls
    reset. *)
Lemma reset_marked row :
  reset repr args_reset row = true <-> marked_reset repr args_reset row.
Proof.
  unfold marked_reset. split.
  - unfold reset, in_reset. intros H.
    apply orb_true_iff in H as [H|HF];
      [apply orb_true_iff in H as [H|HE];
       [apply orb_true_iff in H as [H|HD]|]|].
    + left. apply reset_test_unlabelled, H.
    + apply bool_decide_eq_true in HD.
      destruct (COGNATE_SET row) as [[s|z]|]; simpl in HD.
      * right. left. eauto.
      * right. right. left. eauto.
      * left. left. reflexivity.
    + destruct (DOCULECT_ID row) as [[s|z]|]; try discriminate.
      apply bool_decide_eq_true in HE. do 3 right. left. eauto.
    + destruct (CONCEPT row) as [[s|z]|]; try discriminate.
      apply bool_decide_eq_true in HF. do 4 right. eauto.
  - intros [H|[(s & E & H)|[(z & E & H)|[(s & E & H)|(s & E & H)]]]];
      unfold reset, in_reset.
    + apply reset_test_unlabelled in H. rewrite H. reflexivity.
    + rewrite E. simpl str. rewrite (bool_decide_eq_true_2 _ H).
      rewrite orb_true_r. reflexivity.
    + rewrite E. simpl str. rewrite (bool_decide_eq_true_2 _ H).
      rewrite orb_true_r. reflexivity.
    + rewrite E, (bool_decide_eq_true_2 _ H), orb_true_r. reflexivity.
    + rewrite E, (bool_decide_eq_true_2 _ H), orb_true_r. reflexivity.
Qed.

Lemma sharing_with_label column label table :
  sharing column label table = with_label column label table.
Proof.
  unfold sharing, with_label.
  apply (filter_decide (fun r => same_value (column r) label)).
  intros r. apply py_eq_same_value.
Qed.

Lemma autocognates_rows_matches t row :
  autocognates_rows t row = base.filter (matches row) (autocognates t).
Proof.
  unfold autocognates_rows. apply (filter_decide (matches row)).
  intros a. unfold matches. rewrite !andb_true_iff, !py_eq_same_value. tauto.
Qed.

(** The frame the loop takes the representative from is the pool of the
    specification. *)
Lemma representatives_pool t row :
  marked_reset repr args_reset row ->
  representatives repr args_reset t row = pool t row.
Proof.
  intros H. apply reset_marked in H. unfold representatives, pool.
  rewrite H, autocognates_rows_matches.
  destruct (base.filter (matches row) (autocognates t)) as [|matched rows];
    apply sharing_with_label.
Qed.

Lemma representatives_kept t row :
  ~ marked_reset repr args_reset row ->
  representatives repr args_reset t row
  = with_label COGNATE_SET (COGNATE_SET row) (workingTable t).
Proof.
  intros H. unfold representatives.
  destruct (reset repr args_reset row) eqn:Hreset.
  - exfalso. apply H, reset_marked, Hreset.
  - apply sharing_with_label.
Qed.

(** What an iteration takes from the frames does not depend on LONG_COGID,
    neither that of the frames nor that of the row. *)
Lemma outcome_clear t row :
  outcome repr args_reset (clear t) (with_LONG_COGID None row)
  = outcome repr args_reset t row.
Proof.
  rewrite <- outcome_erase, erase_clear, outcome_erase.
  assert (Hr : representatives repr args_reset t (with_LONG_COGID None row)
               = representatives repr args_reset t row) by reflexivity.
  assert (Hs : reset repr args_reset (with_LONG_COGID None row)
               = reset repr args_reset row) by reflexivity.
  unfold outcome, representative, notices. rewrite Hr, Hs.
  destruct (representatives repr args_reset t row); reflexivity.
Qed.

Lemma workingTable_clear t i row :
  workingTable t !! i = Some row ->
  cognates (clear t) !! i = Some (with_LONG_COGID None row).
Proof.
  intros H. rewrite cognates_clear.
  change (map (with_LONG_COGID None) (cognates t))
    with (with_LONG_COGID None <$> workingTable t).
  rewrite list_lookup_fmap, H. reflexivity.
Qed.

(** The final LONG_COGID of a row of the working table. *)
Lemma final_LONG_COGID t i row :
  workingTable t !! i = Some row ->
  LONG_COGID <$> workingTable (tables (resolve repr args_reset t)) !! i
  = Some (Some (outcome repr args_reset t row).1.1).
Proof.
  intros H. apply workingTable_clear in H.
  change (workingTable (tables (resolve repr args_reset t)))
    with (cognates (tables (resolve repr args_reset t))).
  rewrite (resolve_lookup repr args_reset t i _ H).
  rewrite <- (outcome_clear t row). reflexivity.
Qed.

Lemma printed_notices t i row x :
  workingTable t !! i = Some row ->
  x ∈ notices repr args_reset t row ->
  x ∈ printed (resolve repr args_reset t).
Proof.
  intros H Hx. apply workingTable_clear in H.
  unfold resolve. simpl printed. apply elem_of_app. left.
  apply resolve_rows_printed. right.
  exists i, (with_LONG_COGID None row). split; [exact H|].
  simpl tables. rewrite outcome_clear. exact Hx.
Qed.

(** C5: for a row of the working table that is marked reset, the rows of
    the automatic table with the row's doculect, transcription and concept
    are searched first; with a match the pool is the automatic rows sharing
    the first matched row's automatic label, without one it is the working
    rows sharing the row's own label, and the grouping message with the
    pool is printed either way; the representative is the first row of the
    pool, or the row itself with a second message when the pool is empty;
    and the row's LONG_COGID ends as the representative's (doculect ID,
    concept, transcription). *)
Theorem reset_row_resolved t i row :
  workingTable t !! i = Some row ->
  marked_reset repr args_reset row ->
  let matched := base.filter (matches row) (autocognates t) in
  let candidates :=
    match matched with
    | a :: _ =>
      base.filter (fun r => same_value (AUTO_COGID r) (AUTO_COGID a))
                  (autocognates t)
    | [] =>
      base.filter (fun r => same_value (COGNATE_SET r) (COGNATE_SET row))
                  (workingTable t)
    end in
  let representative :=
    match candidates with
    | r :: _ => r
    | [] => row
    end in
  let st := resolve repr args_reset t in
  LONG_COGID <$> workingTable (tables st) !! i
  = Some (Some (DOCULECT_ID representative, CONCEPT representative,
                IPA representative))
  /\ Grouping (DOCULECT_ID row, CONCEPT row, IPA row)
              (map (fun r => (DOCULECT_ID r, CONCEPT r, IPA r, COGNATE_SET r))
                   candidates)
     ∈ printed st
  /\ (candidates = [] ->
      NoCoding (DOCULECT_ID row, CONCEPT row, IPA row) ∈ printed st).
Proof.
  intros Hrow Hreset matched candidates representative st.
  assert (Hpool : representatives repr args_reset t row = candidates)
    by (apply representatives_pool, Hreset).
  split; [|split].
  - unfold st. rewrite (final_LONG_COGID t i row Hrow).
    unfold outcome, Resolver.representative. simpl. rewrite Hpool.
    reflexivity.
  - apply (printed_notices t i row _ Hrow). unfold notices.
    rewrite (proj2 (reset_marked row) Hreset), Hpool.
    apply elem_of_app. left. apply list_elem_of_singleton. reflexivity.
  - intros Hempty. apply (printed_notices t i row _ Hrow). unfold notices.
    rewrite Hpool, Hempty.
    apply elem_of_app. right. apply list_elem_of_singleton. reflexivity.
Qed.

(** Two rows that are not marked reset and carry the same label end with
    the same LONG_COGID: the (doculect ID, concept, transcription) of the
    first row of the working table with that label. *)
Theorem same_label_same_LONG_COGID t i j ri rj :
  workingTable t !! i = Some ri ->
  workingTable t !! j = Some rj ->
  ~ marked_reset repr args_reset ri ->
  ~ marked_reset repr args_reset rj ->
  COGNATE_SET ri = COGNATE_SET rj ->
  exists k first,
    first_with (fun r => same_value (COGNATE_SET r) (COGNATE_SET ri))
               (workingTable t) k first
    /\ LONG_COGID <$>
         workingTable (tables (resolve repr args_reset t)) !! i
       = Some (Some (DOCULECT_ID first, CONCEPT first, IPA first))
    /\ LONG_COGID <$>
         workingTable (tables (resolve repr args_reset t)) !! j
       = Some (Some (DOCULECT_ID first, CONCEPT first, IPA first)).
Proof.
  intros Hi Hj Hri Hrj Hlabel.
  assert (Hreset : reset repr args_reset ri = false).
  { destruct (reset repr args_reset ri) eqn:E; [|reflexivity].
    exfalso. apply Hri, reset_marked, E. }
  destruct (sharing_own_label repr args_reset t i ri Hi Hreset)
    as (first & rest & Hpool).
  rewrite sharing_with_label in Hpool.
  change (cognates t) with (workingTable t) in Hpool.
  unfold with_label in Hpool.
  destruct (filter_first _ _ _ _ Hpool) as [k Hk].
  exists k, first. split; [exact Hk|].
  rewrite (final_LONG_COGID t i ri Hi), (final_LONG_COGID t j rj Hj).
  unfold outcome, representative. simpl.
  rewrite (representatives_kept t ri Hri), (representatives_kept t rj Hrj).
  rewrite <- Hlabel. unfold with_label. rewrite Hpool.
  split; reflexivity.
Qed.

(** Two rows marked reset whose forms are found in the automatic table
    under the same automatic label end with the same LONG_COGID: the
    (doculect ID, concept, transcription) of the first row of the automatic
    table with that label. *)
Theorem same_automatic_label_same_LONG_COGID t i j ri rj ka a kb b :
  workingTable t !! i = Some ri ->
  workingTable t !! j = Some rj ->
  marked_reset repr args_reset ri ->
  marked_reset repr args_reset rj ->
  first_with (matches ri) (autocognates t) ka a ->
  first_with (matches rj) (autocognates t) kb b ->
  same_value (AUTO_COGID a) (AUTO_COGID b) ->
  exists k first,
    first_with (fun r => same_value (AUTO_COGID r) (AUTO_COGID a))
               (autocognates t) k first
    /\ LONG_COGID <$>
         workingTable (tables (resolve repr args_reset t)) !! i
       = Some (Some (DOCULECT_ID first, CONCEPT first, IPA first))
    /\ LONG_COGID <$>
         workingTable (tables (resolve repr args_reset t)) !! j
       = Some (Some (DOCULECT_ID first, CONCEPT first, IPA first)).
Proof.
  intros Hi Hj Hri Hrj Ha Hb Hlabel.
  assert (Hsame : AUTO_COGID b = AUTO_COGID a)
    by (destruct Hlabel as (v & -> & ->); reflexivity).
  assert (Hself : a ∈ base.filter
                    (fun r => same_value (AUTO_COGID r) (AUTO_COGID a))
                    (autocognates t)).
  { apply list_elem_of_filter. split.
    - destruct Hlabel as (v & E & _). exists v. split; exact E.
    - destruct Ha as (Hka & _). eapply list_elem_of_lookup_2, Hka. }
  destruct (base.filter (fun r => same_value (AUTO_COGID r) (AUTO_COGID a))
              (autocognates t)) as [|first rest] eqn:Hpool.
  { apply elem_of_nil in Hself. contradiction. }
  destruct (filter_first _ _ _ _ Hpool) as [k Hk].
  exists k, first. split; [exact Hk|].
  rewrite (final_LONG_COGID t i ri Hi), (final_LONG_COGID t j rj Hj).
  unfold outcome, representative. simpl.
  rewrite (representatives_pool t ri Hri), (representatives_pool t rj Hrj).
  unfold pool, with_label.
  destruct (first_filter _ _ _ _ Ha) as [ra ->].
  destruct (first_filter _ _ _ _ Hb) as [rb ->].
  rewrite Hsame, Hpool. split; reflexivity.
Qed.

End Against.

End ResolverSpecFacts.

(** The first manual row of [mixed_automatic] is found in the automatic
    table at its third row, under label 7; the first automatic row with
    that label is the second one.  The second manual row is not found and
    has no label. *)
Lemma reset_row_resolved_witness :
  Resolver.LONG_COGID <$>
    ResolverSpec.workingTable
      (Resolver.tables (Resolver.resolve repr_int [] mixed_automatic)) !! 0%nat
  = Some (Some (Some (Str (u "sawi1256")), Some (Str (u "hand")),
                Some (Str (u "tana"))))
  /\ Resolver.Grouping
       (Some (Str (u "kama1365")), Some (Str (u "hand")), Some (Str (u "taŋ")))
       [(Some (Str (u "sawi1256")), Some (Str (u "hand")),
         Some (Str (u "tana")), None);
        (Some (Str (u "kama1365")), Some (Str (u "hand")),
         Some (Str (u "taŋ")), None)]
     ∈ Resolver.printed (Resolver.resolve repr_int [] mixed_automatic)
  /\ Resolver.LONG_COGID <$>
       ResolverSpec.workingTable
         (Resolver.tables (Resolver.resolve repr_int [] mixed_automatic))
       !! 1%nat
     = Some (Some (Some (Str (u "wers1238")), Some (Str (u "hand")),
                   Some (Str (u "teŋ"))))
  /\ Resolver.NoCoding
       (Some (Str (u "wers1238")), Some (Str (u "hand")), Some (Str (u "teŋ")))
     ∈ Resolver.printed (Resolver.resolve repr_int [] mixed_automatic).
Proof.
  pose proof (ResolverSpecFacts.reset_row_resolved repr_int []
                mixed_automatic 0 _ eq_refl (or_introl (or_introl eq_refl)))
    as (H0 & G0 & _).
  pose proof (ResolverSpecFacts.reset_row_resolved repr_int []
                mixed_automatic 1 _ eq_refl (or_introl (or_introl eq_refl)))
    as (H1 & _ & N1).
  split; [exact H0|]. split; [exact G0|]. split; [exact H1|].
  exact (N1 eq_refl).
Defined.

Lemma same_label_same_LONG_COGID_witness :
  exists k first,
    first_with
      (fun r => same_value (Resolver.COGNATE_SET r) (Some (Num 1)))
      (ResolverSpec.workingTable labelled_rows) k first
    /\ Resolver.LONG_COGID <$>
         ResolverSpec.workingTable
           (Resolver.tables (Resolver.resolve repr_int [] labelled_rows))
         !! 1%nat
       = Some (Some (Resolver.DOCULECT_ID first, Resolver.CONCEPT first,
                     Resolver.IPA first))
    /\ Resolver.LONG_COGID <$>
         ResolverSpec.workingTable
           (Resolver.tables (Resolver.resolve repr_int [] labelled_rows))
         !! 2%nat
       = Some (Some (Resolver.DOCULECT_ID first, Resolver.CONCEPT first,
                     Resolver.IPA first)).
Proof.
  apply (ResolverSpecFacts.same_label_same_LONG_COGID repr_int []
           labelled_rows 1 2
           (form_row (u "Kamang") (u "kama1365") (u "hand") (u "taŋ")
              (Some (Num 1)) (Some (Num 1)))
           (form_row (u "Sawila") (u "sawi1256") (u "arm") (u "tana")
              (Some (Num 1)) (Some (Num 1))));
    try reflexivity;
    unfold ResolverSpec.marked_reset, unlabelled; simpl;
    intros [[H|[H|[H|H]]]|[(s & _ & H)|[(z & _ & H)|[(s & _ & H)|(s & _ & H)]]]];
    try discriminate H; apply elem_of_nil in H; exact H.
Defined.

Lemma same_automatic_label_same_LONG_COGID_witness :
  exists k first,
    first_with
      (fun r => same_value (Resolver.AUTO_COGID r) (Some (Num 7)))
      (Resolver.autocognates mixed_automatic) k first
    /\ Resolver.LONG_COGID <$>
         ResolverSpec.workingTable
           (Resolver.tables (Resolver.resolve repr_int [] mixed_automatic))
         !! 0%nat
       = Some (Some (Resolver.DOCULECT_ID first, Resolver.CONCEPT first,
                     Resolver.IPA first))
    /\ Resolver.LONG_COGID <$>
         ResolverSpec.workingTable
           (Resolver.tables (Resolver.resolve repr_int [] mixed_automatic))
         !! 2%nat
       = Some (Some (Resolver.DOCULECT_ID first, Resolver.CONCEPT first,
                     Resolver.IPA first)).
Proof.
  apply (ResolverSpecFacts.same_automatic_label_same_LONG_COGID repr_int []
           mixed_automatic 0 2
           (form_row (u "Kamang") (u "kama1365") (u "hand") (u "taŋ")
              None None)
           (form_row (u "Sawila") (u "sawi1256") (u "hand") (u "tana")
              None None)
           2
           (form_row (u "Kamang") (u "kama1365") (u "hand") (u "taŋ")
              None (Some (Num 7)))
           1
           (form_row (u "Sawila") (u "sawi1256") (u "hand") (u "tana")
              None (Some (Num 7)))).
  - reflexivity.
  - reflexivity.
  - left. left. reflexivity.
  - left. left. reflexivity.
  - split; [reflexivity|]. split; [by_decide|].
    intros [|[|k']] r' Hk Hr'; [| |lia]; injection Hr' as <-; by_decide.
  - split; [reflexivity|]. split; [by_decide|].
    intros [|k'] r' Hk Hr'; [|lia]; injection Hr' as <-; by_decide.
  - by_decide.
Defined.

(** ** Alignment validation against the notions of the specification *)

(** [len(x.split())] is the number of maximal runs of characters that are
    not white space. *)
Lemma split_from_count word s :
  length (split_from word s)
  = (count_from (match word with [] => false | _ => true end) s
     + length (yield_if word))%nat.
Proof.
  revert word. induction s as [|c s IH]; intros word; simpl.
  - reflexivity.
  - destruct (isspace c).
    + rewrite length_app, IH. simpl. lia.
    + rewrite IH. destruct word; simpl; lia.
Qed.

Lemma split_token_count x : length (split x) = token_count x.
Proof. unfold split, token_count. rewrite split_from_count. simpl. lia. Qed.

Module ValidatorSpecFacts.
Import Validator ValidatorFacts ValidatorMore ValidatorSpec.

(** The rows of the frame that [groupby] hands to the loop for a key are
    the rows of the group. *)
Lemma cognate_class_group cogid alignments :
  map snd (cognate_class cogid alignments) = group cogid alignments.
Proof.
  unfold cognate_class, group.
  assert (H : forall (f : nat -> Row -> nat * Row) l,
            (forall n r, (f n r).2 = r) ->
            map snd (List.filter
                       (fun ir => bool_decide (COGID ir.2 = Some cogid))
                       (imap f l))
            = base.filter (fun r => COGID r = Some cogid) l).
  { intros f l. revert f. induction l as [|x l IH]; intros f Hf;
      [reflexivity|].
    simpl. rewrite Hf, filter_cons.
    destruct (decide (COGID x = Some cogid)) as [Hx|Hx].
    - rewrite bool_decide_eq_true_2 by exact Hx. simpl. rewrite Hf. f_equal.
      apply IH. intros n r. apply Hf.
    - rewrite bool_decide_eq_false_2 by exact Hx.
      apply IH. intros n r. apply Hf. }
  apply H. reflexivity.
Qed.

(** The set the loop computes for a group is the set of its token
    counts. *)
Lemma is_aligned_token_counts cogid alignments :
  is_aligned (cognate_class cogid alignments) = token_counts cogid alignments.
Proof.
  unfold is_aligned, token_counts.
  rewrite <- cognate_class_group, map_map. f_equal.
  apply map_ext. intros [n r]. simpl.
  destruct (ALIGNMENT r) as [x|]; simpl; [rewrite split_token_count|];
    reflexivity.
Qed.

Section Against.
Variable has_AUTO_ALIGNMENT : bool.

(** C6: for a row of a COGID group that pandas iterates, the set of the
    distinct token counts of the group's alignments (a missing alignment
    being one value of its own) has at least one element; when it has more
    than one, the row's alignment ends as its AUTO_ALIGNMENT value if the
    file has that column and as "-" otherwise; when it has exactly one, the
    row is unchanged. *)
Theorem validate_groups cogids alignments i r cogid :
  alignments !! i = Some r ->
  COGID r = Some cogid ->
  cogid ∈ cogids ->
  let counts : gset (option nat) :=
    list_to_set
      (map (fun r => option_map token_count (ALIGNMENT r))
           (base.filter (fun r => COGID r = Some cogid) alignments)) in
  (1 <= size counts)%nat
  /\ ((1 < size counts)%nat ->
      validate has_AUTO_ALIGNMENT cogids alignments !! i
      = Some {| COGID := COGID r;
                ALIGNMENT := if has_AUTO_ALIGNMENT then AUTO_ALIGNMENT r
                             else Some (u "-");
                AUTO_ALIGNMENT := AUTO_ALIGNMENT r |})
  /\ (size counts = 1%nat ->
      validate has_AUTO_ALIGNMENT cogids alignments !! i = Some r).
Proof.
  intros Hr Hc Hin counts.
  assert (Hcounts : is_aligned (cognate_class cogid alignments) = counts)
    by apply is_aligned_token_counts.
  pose proof (validate_group_row has_AUTO_ALIGNMENT cogids alignments i r
                cogid Hr Hc Hin) as H.
  cbv zeta in H. rewrite Hcounts in H. exact H.
Qed.

End Against.

(** Without an AUTO_ALIGNMENT column every iterated group ends with one
    token count: it had one, or all its alignments are now "-". *)
Theorem validate_uniform_without_fallback cogids alignments i r cogid :
  alignments !! i = Some r ->
  COGID r = Some cogid ->
  cogid ∈ cogids ->
  let after := validate false cogids alignments in
  size (list_to_set (C := gset (option nat))
          (map (fun r => option_map token_count (ALIGNMENT r))
               (base.filter (fun r => COGID r = Some cogid) after)))
  = 1%nat.
Proof.
  intros Hr Hc Hin after.
  pose proof (validate_one_count cogids alignments i r cogid Hr Hc Hin) as H.
  rewrite is_aligned_token_counts in H. exact H.
Qed.

End ValidatorSpecFacts.

(** In [uneven_rows] the group 1 has the token counts 3 and 4, and the
    group 2 the one token count 3 (with 5 and 6 characters). *)
Lemma validate_groups_witness :
  Validator.validate true [Num 1; Num 2] uneven_rows !! 0%nat
  = Some {| Validator.COGID := Some (Num 1);
            Validator.ALIGNMENT := Some (u "t a ŋ -");
            Validator.AUTO_ALIGNMENT := Some (u "t a ŋ -") |}
  /\ Validator.validate true [Num 1; Num 2] uneven_rows !! 1%nat
     = Some {| Validator.COGID := Some (Num 2);
               Validator.ALIGNMENT := Some (u "m aː t");
               Validator.AUTO_ALIGNMENT := Some (u "m aː t") |}
  /\ Validator.validate false [Num 1; Num 2] uneven_rows !! 2%nat
     = Some {| Validator.COGID := Some (Num 1);
               Validator.ALIGNMENT := Some (u "-");
               Validator.AUTO_ALIGNMENT := Some (u "t a n a") |}.
Proof.
  pose proof (ValidatorSpecFacts.validate_groups true [Num 1; Num 2]
                uneven_rows 0 _ (Num 1) eq_refl eq_refl ltac:(by_decide))
    as (_ & Hmany & _).
  pose proof (ValidatorSpecFacts.validate_groups true [Num 1; Num 2]
                uneven_rows 1 _ (Num 2) eq_refl eq_refl ltac:(by_decide))
    as (_ & _ & Hone).
  pose proof (ValidatorSpecFacts.validate_groups false [Num 1; Num 2]
                uneven_rows 2 _ (Num 1) eq_refl eq_refl ltac:(by_decide))
    as (_ & Hgap & _).
  split; [apply Hmany; vm_compute; lia|].
  split; [apply Hone; vm_compute; reflexivity|].
  apply Hgap. vm_compute. lia.
Defined.

Lemma validate_uniform_without_fallback_witness :
  size (list_to_set (C := gset (option nat))
          (map (fun r => option_map token_count (Validator.ALIGNMENT r))
               (base.filter (fun r => Validator.COGID r = Some (Num 1))
                  (Validator.validate false [Num 1; Num 2] uneven_rows))))
  = 1%nat
  /\ size (list_to_set (C := gset (option nat))
          (map (fun r => option_map token_count (Validator.ALIGNMENT r))
               (base.filter (fun r => Validator.COGID r = Some (Num 2))
                  (Validator.validate false [Num 1; Num 2] uneven_rows))))
     = 1%nat.
Proof.
  split.
  - apply (ValidatorSpecFacts.validate_uniform_without_fallback
             [Num 1; Num 2] uneven_rows 0 _ (Num 1) eq_refl eq_refl).
    by_decide.
  - apply (ValidatorSpecFacts.validate_uniform_without_fallback
             [Num 1; Num 2] uneven_rows 1 _ (Num 2) eq_refl eq_refl).
    by_decide.
Defined.

(** ** Renumbering and the reset test of stage 2 *)

(** Without reset directives the test of stage 2 is the test of the
    renumbering. *)
Lemma reset_no_directives repr row :
  Resolver.reset repr [] row = true <-> unlabelled (Resolver.COGNATE_SET row).
Proof.
  rewrite <- reset_test_unlabelled.
  unfold Resolver.reset, Resolver.in_reset.
  rewrite (bool_decide_eq_false_2 (_ ∈ [])) by apply not_elem_of_nil.
  assert (Hd : forall c : cell,
            match c with
            | Some (Str s) => bool_decide (s ∈ @nil pystr)
            | _ => false
            end = false).
  { intros [[s|z]|]; reflexivity. }
  rewrite !Hd, !orb_false_r. reflexivity.
Qed.

(** The renumbering keeps apart the rows with and without a label: the new
    cell is without label exactly when the old one is, so stage 2 (run
    without reset directives) resets a row with the new cell exactly when
    the row had no label before the renumbering. *)
Theorem renumber_keeps_absent list_of_set column out i c y :
  renumber list_of_set column = Ok out ->
  column !! i = Some c ->
  out !! i = Some y ->
  (unlabelled y <-> unlabelled c)
  /\ (forall repr row,
        Resolver.COGNATE_SET row = y ->
        (Resolver.reset repr [] row = true <-> unlabelled c)).
Proof.
  intros Hout Hc Hy.
  pose proof (renumber_lookup list_of_set column out i c y Hout Hc Hy)
    as Hcell.
  assert (Hyc : unlabelled y <-> unlabelled c).
  { unfold unlabelled at 2. rewrite <- absent_cases.
    destruct (absent c) eqn:Hab.
    - rewrite renumber_cell_absent in Hcell by exact Hab.
      injection Hcell as <-. unfold unlabelled. tauto.
    - apply renumber_cell_label in Hcell as (n & _ & ->); [|exact Hab].
      unfold unlabelled. split; [|discriminate].
      intros [H|[H|[H|H]]]; try discriminate H.
      injection H as H. lia. }
  split; [exact Hyc|].
  intros repr row <-. rewrite reset_no_directives. exact Hyc.
Qed.

Lemma renumber_keeps_absent_witness :
  ((unlabelled (Some (Num 2)) <-> unlabelled (Some (Num 5)))
   /\ (forall repr row,
         Resolver.COGNATE_SET row = Some (Num 2) ->
         (Resolver.reset repr [] row = true <-> unlabelled (Some (Num 5)))))
  /\ ((unlabelled (Some (Str (u ""))) <-> unlabelled None)
      /\ (forall repr row,
            Resolver.COGNATE_SET row = Some (Str (u "")) ->
            (Resolver.reset repr [] row = true <-> unlabelled None))).
Proof.
  split.
  - apply (renumber_keeps_absent moving_nan
             [None; Some (Num 5); Some (Num 5); Some (Num 6)]
             [Some (Str (u "")); Some (Num 1); Some (Num 2); Some (Num 2)]
             2).
    + vm_compute. reflexivity.
    + reflexivity.
    + reflexivity.
  - apply (renumber_keeps_absent moving_nan
             [None; Some (Num 5); Some (Num 5); Some (Num 6)]
             [Some (Str (u "")); Some (Num 1); Some (Num 2); Some (Num 2)]
             0).
    + vm_compute. reflexivity.
    + reflexivity.
    + reflexivity.
Defined.
